(** * Therian Chat backend (server v2): session registry, channel membership
      and message dispatch

    A shallow embedding of the Express / Socket.io server: the
    request/response handlers, the persistent-connection event handlers, the
    PostgreSQL tables they query and the in-memory [connectedUsers] map.

    Conventions of the embedding.
    - A JavaScript string is the list of its UTF-16 code units, so that
      [length] is [String.prototype.length].
    - A handler that [await]s its queries runs to completion before the
      next one starts; the [await]ed store round trip is one step of the
      handler.  The [auth] event does not await its lookup: the callback
      that registers the session runs when the store has answered, and other
      handlers may run in between ([serve]).  [step] has the case in which
      none does.
    - A string that has been to the store comes back as the driver's UTF-8
      encoding decodes ([utf8_round_trip]).
    - A rejection that no handler catches is reported in the output
      ([unhandled_rejection]); what becomes of the process then is the
      runtime's choice ([exit_on_unhandled_rejection]).
    - A [pool.query] either runs against the tables or is rejected with an
      error message.  Which of the two happens is an input of the step
      ([fail]), so a theorem quantified over it covers every reason the store
      may have to reject a statement (connectivity, a violated constraint).
    - [NOW()] is the clock reading [now] given to the step. *)

From stdpp Require Import base gmap sets list strings sorting.
From Stdlib Require Import ZArith NArith Ascii.

Local Open Scope Z_scope.
Set Warnings "-clear-no-such-hyp".

(** ** JavaScript strings *)

Abbreviation jsstring := (list N).

(** A string literal of the source, as code units. *)
Definition js (s : string) : jsstring :=
  (λ a, N_of_ascii a) <$> String.list_ascii_of_string s.

(** White space and line terminators removed by [String.prototype.trim]. *)
Definition is_whitespace (c : N) : bool :=
  ((9 <=? c) && (c <=? 13) || (c =? 32) || (c =? 160) || (c =? 5760)
   || (8192 <=? c) && (c <=? 8202) || (c =? 8232) || (c =? 8233)
   || (c =? 8239) || (c =? 8287) || (c =? 12288) || (c =? 65279))%N.

Fixpoint trimStart (s : jsstring) : jsstring :=
  match s with
  | c :: s' => if is_whitespace c then trimStart s' else s
  | [] => []
  end.

Definition trimEnd (s : jsstring) : jsstring := reverse (trimStart (reverse s)).

Definition trim (s : jsstring) : jsstring := trimEnd (trimStart s).

(** [s.split(sep)] for a one-unit separator: never the empty list. *)
Fixpoint split (sep : N) (s : jsstring) : list jsstring :=
  match s with
  | [] => [[]]
  | c :: s' =>
      if decide (c = sep) then [] :: split sep s'
      else match split sep s' with
           | w :: ws => (c :: w) :: ws
           | [] => [[c]]
           end
  end.

(** [xs.includes(x)] on an array of strings. *)
Definition includes (xs : list jsstring) (x : jsstring) : bool :=
  bool_decide (x ∈ xs).

(** [s.startsWith(p)] *)
Fixpoint startsWith (s p : jsstring) : bool :=
  match p, s with
  | [], _ => true
  | a :: p', b :: s' => bool_decide (a = b) && startsWith s' p'
  | _ :: _, [] => false
  end.

Definition underscore : N := 95.
Definition space : N := 32.

(** The code units U+D800 to U+DBFF and U+DC00 to U+DFFF. *)
Definition is_high_surrogate (c : N) : bool := ((55296 <=? c) && (c <=? 56319))%N.
Definition is_low_surrogate (c : N) : bool := ((56320 <=? c) && (c <=? 57343))%N.

(** A string as it comes back from the store.  The driver writes a query
    parameter as UTF-8, where a high surrogate followed by a low one is one
    character and a surrogate without its partner is written as U+FFFD; the
    store returns what it was sent, and the driver decodes it. *)
Fixpoint utf8_round_trip (s : jsstring) : jsstring :=
  match s with
  | [] => []
  | c :: s' =>
      if is_high_surrogate c then
        match s' with
        | c' :: s'' =>
            if is_low_surrogate c' then c :: c' :: utf8_round_trip s''
            else 65533%N :: utf8_round_trip s'
        | [] => [65533%N]
        end
      else if is_low_surrogate c then 65533%N :: utf8_round_trip s'
      else c :: utf8_round_trip s'
  end.

(** [String.prototype.isWellFormed]: every surrogate has its partner. *)
Fixpoint isWellFormed (s : jsstring) : bool :=
  match s with
  | [] => true
  | c :: s' =>
      if is_high_surrogate c then
        match s' with
        | c' :: s'' => is_low_surrogate c' && isWellFormed s''
        | [] => false
        end
      else negb (is_low_surrogate c) && isWellFormed s'
  end.

(** ** The PostgreSQL tables

    [users] is keyed by its primary key [id]; the two message tables keep
    their rows in insertion order together with the next value of their
    [SERIAL] sequence; [friends] is the set of its (user_id, friend_id)
    primary keys. *)

Record user_row := mk_user {
  u_name : jsstring;
  u_photo : option jsstring;
  u_email : option jsstring;
  u_premium : bool;
  u_last_seen : Z;
  u_is_banned : bool
}.

(** A row of [messages] or of [dm_messages]; [m_channel] is the column
    [room_id], respectively [chat_id]. *)
Record message_row := mk_message {
  m_id : Z;
  m_channel : jsstring;
  m_user_id : jsstring;
  m_text : jsstring;
  m_created_at : Z
}.

Record database := mk_db {
  users : gmap jsstring user_row;
  messages : list message_row;
  messages_id_seq : Z;
  dm_messages : list message_row;
  dm_messages_id_seq : Z;
  friends : gset (jsstring * jsstring)
}.

Definition set_users (f : gmap jsstring user_row → gmap jsstring user_row)
    (d : database) : database :=
  mk_db (f (users d)) (messages d) (messages_id_seq d)
        (dm_messages d) (dm_messages_id_seq d) (friends d).

Definition COALESCE {A} (a b : option A) : option A :=
  match a with Some _ => a | None => b end.

(** [INSERT INTO users (id, name, photo, email, last_seen)
     VALUES ($1, $2, $3, $4, NOW())
     ON CONFLICT (id) DO UPDATE SET last_seen = NOW(),
       photo = COALESCE(EXCLUDED.photo, users.photo) RETURNING *] *)
Definition upsert_user (d : database) (id name photo email : jsstring)
    (now : Z) : database * user_row :=
  let row :=
    match users d !! id with
    | Some old =>
        mk_user (u_name old) (COALESCE (Some photo) (u_photo old))
                (u_email old) (u_premium old) now (u_is_banned old)
    | None => mk_user name (Some photo) (Some email) false now false
    end in
  (set_users <[id := row]> d, row).

(** [UPDATE users SET last_seen = NOW() WHERE id = $1] *)
Definition touch_last_seen (id : jsstring) (now : Z) (d : database) : database :=
  set_users (alter (λ u, mk_user (u_name u) (u_photo u) (u_email u)
                                 (u_premium u) now (u_is_banned u)) id) d.

(** [UPDATE users SET name = $1 WHERE id = $2] *)
Definition update_name (id name : jsstring) (d : database) : database :=
  set_users (alter (λ u, mk_user name (u_photo u) (u_email u)
                                 (u_premium u) (u_last_seen u) (u_is_banned u)) id) d.

(** [UPDATE users SET photo = $1 WHERE id = $2] *)
Definition update_photo (id photo : jsstring) (d : database) : database :=
  set_users (alter (λ u, mk_user (u_name u) (Some photo) (u_email u)
                                 (u_premium u) (u_last_seen u) (u_is_banned u)) id) d.

(** [UPDATE users SET is_banned = $flag WHERE id = $1] *)
Definition update_is_banned (id : jsstring) (flag : bool) (d : database) : database :=
  set_users (alter (λ u, mk_user (u_name u) (u_photo u) (u_email u)
                                 (u_premium u) (u_last_seen u) flag) id) d.

(** [INSERT INTO messages (room_id, user_id, text, created_at)
     VALUES ($1, $2, $3, NOW()) RETURNING *]: the row holds the text as the
    store received it. *)
Definition insert_message (d : database) (roomId user_id text : jsstring)
    (now : Z) : database * message_row :=
  let row := mk_message (messages_id_seq d) roomId user_id
                        (utf8_round_trip text) now in
  (mk_db (users d) (messages d ++ [row]) (messages_id_seq d + 1)
         (dm_messages d) (dm_messages_id_seq d) (friends d), row).

(** [INSERT INTO dm_messages (chat_id, user_id, text, created_at)
     VALUES ($1, $2, $3, NOW()) RETURNING *] *)
Definition insert_dm_message (d : database) (chatId user_id text : jsstring)
    (now : Z) : database * message_row :=
  let row := mk_message (dm_messages_id_seq d) chatId user_id
                        (utf8_round_trip text) now in
  (mk_db (users d) (messages d) (messages_id_seq d)
         (dm_messages d ++ [row]) (dm_messages_id_seq d + 1) (friends d), row).

(** [DELETE FROM messages WHERE id = $1 RETURNING room_id] *)
Definition delete_message (d : database) (msgId : Z) : database * list jsstring :=
  (mk_db (users d) (filter (λ m, m_id m ≠ msgId) (messages d)) (messages_id_seq d)
         (dm_messages d) (dm_messages_id_seq d) (friends d),
   m_channel <$> filter (λ m, m_id m = msgId) (messages d)).

(** [INSERT INTO friends (user_id, friend_id) VALUES ($1, $2), ($2, $1)
     ON CONFLICT DO NOTHING] *)
Definition insert_friends (d : database) (a b : jsstring) : database :=
  mk_db (users d) (messages d) (messages_id_seq d)
        (dm_messages d) (dm_messages_id_seq d) ({[ (a, b); (b, a) ]} ∪ friends d).

(** A row of the history queries: the message columns and the author's
    [name], [photo] and [premium] from the join with [users]. *)
Record history_row := mk_history {
  h_id : Z;
  h_channel : jsstring;
  h_user_id : jsstring;
  h_text : jsstring;
  h_created_at : Z;
  h_name : jsstring;
  h_photo : option jsstring;
  h_premium : bool
}.

(** [FROM messages m JOIN users u ON u.id = m.user_id] for one row of [m]. *)
Definition join_users (us : gmap jsstring user_row) (m : message_row)
    : option history_row :=
  u ← us !! m_user_id m;
  Some (mk_history (m_id m) (m_channel m) (m_user_id m) (m_text m)
                   (m_created_at m) (u_name u) (u_photo u) (u_premium u)).

(** [ORDER BY m.created_at ASC], as a stable insertion sort: rows with equal
    timestamps keep their table order. *)
Fixpoint insert_by_created_at (r : history_row) (l : list history_row)
    : list history_row :=
  match l with
  | [] => [r]
  | x :: l' =>
      if h_created_at r <=? h_created_at x then r :: l
      else x :: insert_by_created_at r l'
  end.

Definition order_by_created_at_asc (l : list history_row) : list history_row :=
  foldr insert_by_created_at [] l.

(** [SELECT m.id, m.room_id, m.user_id, m.text, m.created_at,
            u.name, u.photo, u.premium
     FROM messages m JOIN users u ON u.id = m.user_id
     WHERE m.room_id = $1 ORDER BY m.created_at ASC LIMIT 80]
    and the same statement over [dm_messages] and [chat_id]. *)
Definition select_history (us : gmap jsstring user_row)
    (table : list message_row) (channel : jsstring) : list history_row :=
  take 80 (order_by_created_at_asc
             (omap (join_users us)
                   (filter (λ m, m_channel m = channel) table))).

(** [SELECT u.id, u.name, u.photo, u.premium, u.last_seen
     FROM friends f JOIN users u ON u.id = f.friend_id WHERE f.user_id = $1] *)
Definition select_friends (d : database) (id : jsstring)
    : list (jsstring * user_row) :=
  omap (λ f : jsstring * jsstring, u ← users d !! f.2; Some (f.2, u))
       (filter (λ f : jsstring * jsstring, f.1 = id) (elements (friends d))).

(** ** Sessions, sockets and events *)

(** The value stored in [connectedUsers] for an authenticated socket. *)
Record session := mk_session {
  uid : jsstring;
  name : jsstring;
  photo : option jsstring;
  premium : bool
}.

(** The server state: the tables, the [connectedUsers] map (socket id to
    session) and [io.sockets.sockets] (socket id to the socket's [rooms]). *)
Record state := mk_state {
  db : database;
  connectedUsers : gmap jsstring session;
  sockets : gmap jsstring (gset jsstring)
}.

Definition set_db (f : database → database) (s : state) : state :=
  mk_state (f (db s)) (connectedUsers s) (sockets s).

Definition set_connectedUsers
    (f : gmap jsstring session → gmap jsstring session) (s : state) : state :=
  mk_state (db s) (f (connectedUsers s)) (sockets s).

Definition set_sockets
    (f : gmap jsstring (gset jsstring) → gmap jsstring (gset jsstring))
    (s : state) : state :=
  mk_state (db s) (connectedUsers s) (f (sockets s)).

(** The object emitted as [new_message] / [new_dm]; [w_channel] is its
    [room_id], respectively [chat_id]. *)
Record wire_message := mk_wire {
  w_id : Z;
  w_channel : jsstring;
  w_user_id : jsstring;
  w_name : jsstring;
  w_photo : option jsstring;
  w_premium : bool;
  w_text : jsstring;
  w_created_at : Z
}.

Inductive event :=
| auth_ok
| auth_error (msg : jsstring)
| banned
| new_message (m : wire_message)
| new_dm (m : wire_message)
| message_deleted (msgId : Z)
| message_error (msg : jsstring).

(** An event as received by one socket. *)
Definition delivery : Type := jsstring * event.

(** The argument of [send_message] / [send_dm]: the handler destructures
    [target] (the property [roomId], respectively [chatId]) and [text]; any
    other property the client put in the object is in [extra]. *)
Record send_payload := mk_payload {
  target : jsstring;
  text : option jsstring;
  extra : list (jsstring * jsstring)
}.

(** The sockets that are in [room] at this moment. *)
Definition members (s : state) (room : jsstring) : list jsstring :=
  fst <$> filter (λ e : jsstring * gset jsstring, room ∈ e.2)
                 (map_to_list (sockets s)).

(** [io.to(room).emit(ev)] *)
Definition io_to_emit (s : state) (room : jsstring) (ev : event) : list delivery :=
  (λ sid, (sid, ev)) <$> members s room.

(** [socket.emit(ev)] *)
Definition socket_emit (sid : jsstring) (ev : event) : list delivery := [(sid, ev)].

(** [socket.rooms.forEach(r => { if (r !== socket.id) socket.leave(r); })] *)
Definition leave_others (sid : jsstring) (rooms : gset jsstring) : gset jsstring :=
  filter (λ r, r = sid) rooms.

(** [socket.join(room)] after the loop above. *)
Definition switch_to (s : state) (sid room : jsstring) : state :=
  match sockets s !! sid with
  | Some rooms => set_sockets <[sid := leave_others sid rooms ∪ {[ room ]}]> s
  | None => s
  end.

(** The clock and the store's verdict on the queries of one handler run:
    [fail i = Some err] rejects the handler's [i]-th query with [err]. *)
Record env := mk_env {
  now : Z;
  fail : nat → option jsstring
}.

(** ** HTTP requests and responses *)

Inductive endpoint :=
| POST_auth_google (idToken : option jsstring)
| GET_users_me
| PUT_users_me_name (new_name : option jsstring)
| PUT_users_me_photo (new_photo : option jsstring)
| GET_rooms_messages (roomId : jsstring)
| GET_dms_messages (chatId : jsstring)
| GET_friends
| GET_users_lookup (id : jsstring)
| POST_friends (friendId : jsstring)
| POST_admin_ban (id : jsstring)
| POST_admin_unban (id : jsstring)
| DELETE_admin_messages (msgId : Z)
| GET_root
| GET_debug_env.

Record request := mk_request {
  authorization : option jsstring;
  route : endpoint
}.

Inductive body :=
| json_error (msg : jsstring)
| json_ok
| json_login (token : jsstring) (id : jsstring) (user : user_row)
| json_user (id : jsstring) (user : user_row) (is_admin : bool)
| json_rows (rows : list history_row)
| json_friends (rows : list (jsstring * user_row))
| json_lookup (id : jsstring) (user_name : jsstring) (user_photo : option jsstring)
| json_status (status app : jsstring)
| json_debug_env (has_google_client_id : bool) (google_client_id_length : nat)
    (has_database_url has_jwt_secret : bool) (node_env : jsstring).

Record response := mk_response {
  status : Z;
  content : body
}.

Definition error (code : Z) (msg : string) : response :=
  mk_response code (json_error (js msg)).

Definition ok (b : body) : response := mk_response 200 b.

(** The payload of a verified Google id token. *)
Record google_payload := mk_google {
  g_sub : jsstring;
  g_name : option jsstring;
  g_picture : option jsstring;
  g_email : option jsstring
}.

(** [v || d] for a string-valued property that may be absent. *)
Definition or_else (v : option jsstring) (d : jsstring) : jsstring :=
  match v with
  | Some (c :: r) => c :: r
  | _ => d
  end.

(** [!!v] for such a property. *)
Definition truthy (v : option jsstring) : bool :=
  match v with
  | Some (_ :: _) => true
  | _ => false
  end.

(** ** External collaborators and configuration

    What the server is given: [googleClient.verifyIdToken] (an error message
    or the payload of the token), [jwt.verify] with [JWT_SECRET] at the
    current time (the [uid] of a valid token), [jwt.sign], [ADMIN_UID]
    (empty when not configured), the variables of [process.env], and what
    the runtime does when a promise is rejected and nothing handles the
    rejection: Node ends the process (the default since version 15) or
    reports the rejection and goes on. *)
Class externals := {
  verifyGoogleToken : jsstring → jsstring + google_payload;
  jwt_verify : Z → jsstring → option jsstring;
  jwt_sign : Z → jsstring → jsstring;
  ADMIN_UID : jsstring;
  process_env : jsstring → option jsstring;
  exit_on_unhandled_rejection : bool
}.

(** ** Inputs and outputs of the server *)

Inductive input :=
| Connection (sid : jsstring)
| Auth (sid token : jsstring)
| JoinRoom (sid roomId : jsstring)
| JoinDm (sid chatId : jsstring)
| SendMessage (sid : jsstring) (p : send_payload)
| SendDm (sid : jsstring) (p : send_payload)
| Disconnect (sid : jsstring)
| Http (r : request).

(** What handling an input gives: the events delivered to sockets, the
    response of a request, and the error of a rejected promise that nothing
    in the source handles. *)
Record output := mk_outcome {
  deliveries : list delivery;
  reply : option response;
  unhandled_rejection : option jsstring
}.

(** The output of a handler that leaves no rejection unhandled. *)
Abbreviation mk_output d r := (mk_outcome d r None).

Definition events (r : state * list delivery) : state * output :=
  (r.1, mk_output r.2 None).

(** The socket an input arrives on. *)
Definition input_socket (i : input) : option jsstring :=
  match i with
  | Connection sid | Auth sid _ | JoinRoom sid _ | JoinDm sid _
  | SendMessage sid _ | SendDm sid _ | Disconnect sid => Some sid
  | Http _ => None
  end.

(** *** The lookups of [auth] events in flight

    [socket.on("auth")] verifies the token and calls
    [pool.query("SELECT * FROM users WHERE id = $1", [decoded.uid])
       .then(({ rows }) => { ... })]
    without awaiting it.  The lookup is then in flight, for the socket and
    the [uid] of the token: first sent, then answered by the store with the
    row of that id (or none) or rejected, and at last handed to the
    callback. *)
Inductive lookup_status :=
| lookup_sent
| lookup_returned (rows : option user_row)
| lookup_rejected (err : jsstring).

Record lookup := mk_lookup {
  l_socket : jsstring;
  l_uid : jsstring;
  l_status : lookup_status
}.

(** The server with the lookups in flight, oldest first. *)
Record server := mk_server {
  core : state;
  lookups : list lookup
}.

(** What happens at the server, one thing at a time: an input handled to
    completion ([Auth] with its lookup and callback, nothing in between), or
    one of the three moments of an [auth] event taken apart: the event
    itself, the store answering the [n]-th lookup in flight, and the
    callback of the [n]-th lookup. *)
Inductive occurrence :=
| Handle (i : input)
| AuthEvent (sid token : jsstring)
| AuthLookup (n : nat)
| AuthCallback (n : nat).

(** ** A small deployment, for examples

    Tokens that carry the identity id in the clear, the administrator
    "admin", a store that accepts every query, and a directory with the
    users "a" and "b", the administrator and the banned user "x". *)

Definition ex_externals : externals := {|
  verifyGoogleToken := λ idToken, inr (mk_google idToken None None None);
  jwt_verify := λ _ token, Some token;
  jwt_sign := λ _ id, id;
  ADMIN_UID := js "admin";
  process_env := λ _, None;
  exit_on_unhandled_rejection := true
|}.

Definition ex_env (t : Z) : env := mk_env t (λ _, None).

(** The same clock with a store that rejects the first query. *)
Definition ex_env_down (t : Z) : env :=
  mk_env t (λ i, match i with O => Some (js "connection refused") | _ => None end).

Definition ex_user (n : string) (is_banned : bool) : user_row :=
  mk_user (js n) None None false 0 is_banned.

Definition ex_users : gmap jsstring user_row :=
  {[ js "a" := ex_user "Ann" false;
     js "b" := ex_user "Bob" false;
     js "admin" := ex_user "Root" false;
     js "x" := ex_user "Xavier" true ]}.

Definition ex_db : database := mk_db ex_users [] 1 [] 1 ∅.

(** The room "lounge" with 81 messages of "a", created at times 1 to 81. *)
Definition ex_lounge : list message_row :=
  (λ n, mk_message (Z.of_nat n) (js "lounge") (js "a") (js "hi") (Z.of_nat n))
    <$> seq 1 81.

Definition ex_bearer (id : string) : option jsstring := Some (js "Bearer " ++ js id).

(** The state after "a" authenticated on socket "s1", "b" on "s2", and a
    third socket "s3" connected without authenticating. *)
Definition ex_online : state :=
  mk_state ex_db
    {[ js "s1" := mk_session (js "a") (js "Ann") None false;
       js "s2" := mk_session (js "b") (js "Bob") None false ]}
    {[ js "s1" := {[ js "s1" ]}; js "s2" := {[ js "s2" ]};
       js "s3" := {[ js "s3" ]} ]}.

(** The inputs that lead to [ex_online]. *)
Definition ex_trace : list (input * env) :=
  [(Connection (js "s1"), ex_env 0); (Auth (js "s1") (js "a"), ex_env 0);
   (Connection (js "s2"), ex_env 0); (Auth (js "s2") (js "b"), ex_env 0);
   (Connection (js "s3"), ex_env 0)].

(** [ex_online] with no lookup in flight. *)
Definition ex_server : server := mk_server ex_online [].

(** The occurrences that lead to [ex_server]: each [auth] event, the
    store's answer to its lookup and the callback of the lookup. *)
Definition ex_occurrences : list (occurrence * env) :=
  [(Handle (Connection (js "s1")), ex_env 0);
   (AuthEvent (js "s1") (js "a"), ex_env 0);
   (Handle (Connection (js "s2")), ex_env 0);
   (AuthEvent (js "s2") (js "b"), ex_env 0);
   (AuthLookup 0, ex_env 0); (AuthLookup 1, ex_env 0);
   (AuthCallback 1, ex_env 0); (AuthCallback 0, ex_env 0);
   (Handle (Connection (js "s3")), ex_env 0)].

(** ** The handlers *)

Section Server.

Context {ext : externals}.

(** *** Persistent-connection events *)

(** A query, or a promise, was rejected. *)
Definition rejected (o : option jsstring) : bool :=
  match o with Some _ => true | None => false end.

(** The callback [({ rows }) => { ... }] of the lookup of an [auth] event,
    for the socket [sid] and the token's [uid] = [id].  It may run when the
    socket has closed: then [socket.emit] reaches nobody, and
    [connectedUsers.set] registers the session all the same.  The
    [last_seen] update is best effort ([refresh = false] when the store
    rejects it). *)
Definition on_auth_rows (s : state) (sid id : jsstring) (rows : option user_row)
    (t : Z) (refresh : bool) : state * list delivery :=
  let emit := λ ev, match sockets s !! sid with
                    | Some _ => socket_emit sid ev
                    | None => []
                    end in
  match rows with
  | None => (s, emit (auth_error (js "Usuario no encontrado")))
  | Some user =>
      if u_is_banned user then (s, emit banned)
      else
        let s1 :=
          set_connectedUsers
            <[sid := mk_session id (u_name user) (u_photo user)
                                (u_premium user)]> s in
        let s2 := if refresh then set_db (touch_last_seen id t) s1 else s1 in
        (s2, emit auth_ok)
  end.

(** [socket.on("auth", token)] with its lookup and the callback, nothing
    else running in between.  A rejected lookup has no handler. *)
Definition on_auth (s : state) (sid token : jsstring) (e : env)
    : state * output :=
  match jwt_verify (now e) token with
  | None => events (s, socket_emit sid (auth_error (js "Token invalido")))
  | Some id =>
      match fail e 0%nat with
      | Some err => (s, mk_outcome [] None (Some err))
      | None =>
          events (on_auth_rows s sid id (users (db s) !! id) (now e)
                               (negb (rejected (fail e 1%nat))))
      end
  end.

(** [socket.on("join_room", roomId)] *)
Definition on_join_room (s : state) (sid roomId : jsstring) : state :=
  switch_to s sid (js "room_" ++ roomId).

(** [socket.on("join_dm", chatId)] *)
Definition on_join_dm (s : state) (sid chatId : jsstring) : state :=
  match connectedUsers s !! sid with
  | None => s
  | Some user =>
      if negb (includes (split underscore chatId) (uid user)) then s
      else switch_to s sid (js "dm_" ++ chatId)
  end.

(** The guard [!text || !text.trim() || text.length > 500] of both send
    handlers: the text to persist, or [None] when the guard returns. *)
Definition accepted_text (t : option jsstring) : option jsstring :=
  match t with
  | None => None
  | Some t =>
      if bool_decide (t = []) || bool_decide (trim t = [])
         || (500 <? Z.of_nat (length t))
      then None else Some (trim t)
  end.

Definition wire (row : message_row) (channel : jsstring) (user : session)
    : wire_message :=
  mk_wire (m_id row) channel (uid user) (name user) (photo user)
          (premium user) (m_text row) (m_created_at row).

(** [socket.on("send_message", { roomId, text })] *)
Definition on_send_message (s : state) (sid : jsstring) (p : send_payload)
    (e : env) : state * list delivery :=
  match connectedUsers s !! sid with
  | None => (s, [])
  | Some user =>
      match accepted_text (text p) with
      | None => (s, [])
      | Some t =>
          match fail e 0%nat with
          | Some err => (s, socket_emit sid (message_error err))
          | None =>
              let '(d, row) :=
                insert_message (db s) (target p) (uid user) t (now e) in
              let s' := set_db (λ _, d) s in
              (s', io_to_emit s' (js "room_" ++ target p)
                     (new_message (wire row (target p) user)))
          end
      end
  end.

(** [socket.on("send_dm", { chatId, text })] *)
Definition on_send_dm (s : state) (sid : jsstring) (p : send_payload)
    (e : env) : state * list delivery :=
  match connectedUsers s !! sid with
  | None => (s, [])
  | Some user =>
      match accepted_text (text p) with
      | None => (s, [])
      | Some t =>
          if negb (includes (split underscore (target p)) (uid user)) then (s, [])
          else
            match fail e 0%nat with
            | Some err => (s, socket_emit sid (message_error err))
            | None =>
                let '(d, row) :=
                  insert_dm_message (db s) (target p) (uid user) t (now e) in
                let s' := set_db (λ _, d) s in
                (s', io_to_emit s' (js "dm_" ++ target p)
                       (new_dm (wire row (target p) user)))
            end
      end
  end.

(** The socket closes (by the client, or by [s.disconnect(true)]): it leaves
    every room and is removed from [io.sockets.sockets], then
    [socket.on("disconnect")] runs.  The [last_seen] refresh is best effort:
    [refresh = false] when the store rejects it. *)
Definition on_disconnect (s : state) (sid : jsstring) (t : Z) (refresh : bool)
    : state :=
  let s1 := set_sockets (delete sid) s in
  match connectedUsers s1 !! sid with
  | None => s1
  | Some user =>
      let s2 := if refresh then set_db (touch_last_seen (uid user) t) s1 else s1 in
      set_connectedUsers (delete sid) s2
  end.

(** *** Request/response operations *)

(** [authMiddleware]: the response that ends the request, or [req.uid]. *)
Definition authMiddleware (t : Z) (header : option jsstring) : response + jsstring :=
  match header with
  | Some (c :: h) =>
      if startsWith (c :: h) (js "Bearer ") then
        match split space (c :: h) !! 1%nat ≫= jwt_verify t with
        | Some id => inr id
        | None => inl (error 401 "Token invalido o expirado")
        end
      else inl (error 401 "No autorizado")
  | _ => inl (error 401 "No autorizado")
  end.

(** [adminMiddleware]: [true] when it calls [next()]. *)
Definition adminMiddleware (id : jsstring) : bool :=
  negb (bool_decide (ADMIN_UID = []) || negb (bool_decide (id = ADMIN_UID))).

(** [app.post("/api/auth/google")] *)
Definition post_auth_google (s : state) (idToken : option jsstring) (e : env)
    : state * response :=
  match idToken with
  | Some (c :: tok) =>
      match verifyGoogleToken (c :: tok) with
      | inl err => (s, mk_response 401 (json_error err))
      | inr gUser =>
          match fail e 0%nat with
          | Some err => (s, mk_response 401 (json_error err))
          | None =>
              let '(d, user) :=
                upsert_user (db s) (g_sub gUser)
                  (or_else (g_name gUser) (js "Anonymous Therian"))
                  (or_else (g_picture gUser) []) (or_else (g_email gUser) [])
                  (now e) in
              let s' := set_db (λ _, d) s in
              if u_is_banned user
              then (s', error 403 "Tu cuenta ha sido baneada de Therians.")
              else (s', ok (json_login (jwt_sign (now e) (g_sub gUser))
                                        (g_sub gUser) user))
          end
      end
  | _ => (s, error 400 "idToken requerido")
  end.

(** The loop body of the ban route's [connectedUsers.forEach]: notify the
    socket's own room, then close the socket if it is still there. *)
Definition evict (id : jsstring) (t : Z) (refresh : bool)
    (acc : state * list delivery) (entry : jsstring * session)
    : state * list delivery :=
  if bool_decide (uid entry.2 = id) then
    let notice := io_to_emit acc.1 entry.1 banned in
    let s' :=
      match sockets acc.1 !! entry.1 with
      | Some _ => on_disconnect acc.1 entry.1 t refresh
      | None => acc.1
      end in
    (s', acc.2 ++ notice)
  else acc.

(** [app.get("/")] *)
Definition get_root : response :=
  ok (json_status (js "ok") (js "Therian Chat API v2")).

(** [app.get("/api/debug-env")] *)
Definition get_debug_env : response :=
  ok (json_debug_env
        (truthy (process_env (js "GOOGLE_CLIENT_ID")))
        (length (or_else (process_env (js "GOOGLE_CLIENT_ID")) []))
        (truthy (process_env (js "DATABASE_URL")))
        (truthy (process_env (js "JWT_SECRET")))
        (or_else (process_env (js "NODE_ENV")) (js "not set"))).

(** The routes behind [authMiddleware]; [me] is [req.uid].  The login route
    and the two status routes are dispatched by [handle_request] before the
    middleware and never get here; their cases only make the match total. *)
Definition authenticated_route (s : state) (me : jsstring) (r : endpoint)
    (e : env) : state * list delivery * response :=
  let storage_error := λ code err, (s, [], mk_response code (json_error err)) in
  match r with
  | GET_root => (s, [], get_root)
  | GET_debug_env => (s, [], get_debug_env)
  | POST_auth_google idToken =>
      let '(s', resp) := post_auth_google s idToken e in (s', [], resp)
  | GET_users_me =>
      match fail e 0%nat with
      | Some err => storage_error 500 err
      | None =>
          match users (db s) !! me with
          | None => (s, [], error 404 "Usuario no encontrado")
          | Some user =>
              (s, [], ok (json_user me user
                            (negb (bool_decide (ADMIN_UID = []))
                             && bool_decide (me = ADMIN_UID))))
          end
      end
  | PUT_users_me_name (Some (c :: n)) =>
      if 40 <? Z.of_nat (length (c :: n)) then (s, [], error 400 "Nombre invalido")
      else
        match fail e 0%nat with
        | Some err => storage_error 500 err
        | None => (set_db (update_name me (c :: n)) s, [], ok json_ok)
        end
  | PUT_users_me_name _ => (s, [], error 400 "Nombre invalido")
  | PUT_users_me_photo (Some (c :: p)) =>
      match fail e 0%nat with
      | Some err => storage_error 500 err
      | None => (set_db (update_photo me (c :: p)) s, [], ok json_ok)
      end
  | PUT_users_me_photo _ => (s, [], error 400 "Foto requerida")
  | GET_rooms_messages roomId =>
      match fail e 0%nat with
      | Some err => storage_error 500 err
      | None =>
          (s, [], ok (json_rows (select_history (users (db s))
                                                (messages (db s)) roomId)))
      end
  | GET_dms_messages chatId =>
      if negb (includes (split underscore chatId) me)
      then (s, [], error 403 "Acceso denegado")
      else
        match fail e 0%nat with
        | Some err => storage_error 500 err
        | None =>
            (s, [], ok (json_rows (select_history (users (db s))
                                                  (dm_messages (db s)) chatId)))
        end
  | GET_friends =>
      match fail e 0%nat with
      | Some err => storage_error 500 err
      | None => (s, [], ok (json_friends (select_friends (db s) me)))
      end
  | GET_users_lookup id =>
      match fail e 0%nat with
      | Some err => storage_error 500 err
      | None =>
          match users (db s) !! id with
          | None => (s, [], error 404 "Usuario no encontrado")
          | Some user => (s, [], ok (json_lookup id (u_name user) (u_photo user)))
          end
      end
  | POST_friends friendId =>
      if bool_decide (friendId = me)
      then (s, [], error 400 "No puedes agregarte a ti mismo")
      else
        match fail e 0%nat with
        | Some err => storage_error 500 err
        | None => (set_db (λ d, insert_friends d me friendId) s, [], ok json_ok)
        end
  | POST_admin_ban id =>
      if negb (adminMiddleware me) then (s, [], error 403 "No autorizado")
      else
        match fail e 0%nat with
        | Some err => storage_error 500 err
        | None =>
            let s1 := set_db (update_is_banned id true) s in
            let '(s2, out) :=
              foldl (evict id (now e) (negb (rejected (fail e 1%nat))))
                    (s1, []) (map_to_list (connectedUsers s1)) in
            (s2, out, ok json_ok)
        end
  | POST_admin_unban id =>
      if negb (adminMiddleware me) then (s, [], error 403 "No autorizado")
      else
        match fail e 0%nat with
        | Some err => storage_error 500 err
        | None => (set_db (update_is_banned id false) s, [], ok json_ok)
        end
  | DELETE_admin_messages msgId =>
      if negb (adminMiddleware me) then (s, [], error 403 "No autorizado")
      else
        match fail e 0%nat with
        | Some err => storage_error 500 err
        | None =>
            let '(d, rows) := delete_message (db s) msgId in
            let s' := set_db (λ _, d) s in
            (s', match rows with
                 | room_id :: _ =>
                     io_to_emit s' (js "room_" ++ room_id) (message_deleted msgId)
                 | [] => []
                 end, ok json_ok)
        end
  end.

(** One HTTP request: the two status routes and the login route are
    registered without [authMiddleware]. *)
Definition handle_request (s : state) (r : request) (e : env)
    : state * list delivery * response :=
  match route r with
  | GET_root => (s, [], get_root)
  | GET_debug_env => (s, [], get_debug_env)
  | POST_auth_google idToken =>
      let '(s', resp) := post_auth_google s idToken e in (s', [], resp)
  | other =>
      match authMiddleware (now e) (authorization r) with
      | inl resp => (s, [], resp)
      | inr me => authenticated_route s me other e
      end
  end.

(** *** The server as a transition system *)

(** One input handled to completion.  A new connection gets a socket that
    is in the room named by its own id; events only arrive on sockets that
    are connected. *)
Definition step (s : state) (i : input) (e : env) : state * output :=
  match i with
  | Http r =>
      let '(s', out, resp) := handle_request s r e in
      (s', mk_output out (Some resp))
  | Connection sid =>
      match sockets s !! sid with
      | None => events (set_sockets <[sid := {[ sid ]}]> s, [])
      | Some _ => events (s, [])
      end
  | _ =>
      match input_socket i ≫= (sockets s !!.) with
      | None => events (s, [])
      | Some _ =>
          match i with
          | Auth sid token => on_auth s sid token e
          | JoinRoom sid roomId => events (on_join_room s sid roomId, [])
          | JoinDm sid chatId => events (on_join_dm s sid chatId, [])
          | SendMessage sid p => events (on_send_message s sid p e)
          | SendDm sid p => events (on_send_dm s sid p e)
          | Disconnect sid =>
              events (on_disconnect s sid (now e)
                        (negb (rejected (fail e 0%nat))), [])
          | _ => events (s, [])
          end
      end
  end.

(** With this output the process ends. *)
Definition exits (out : output) : bool :=
  exit_on_unhandled_rejection && rejected (unhandled_rejection out).

(** Handling a sequence of inputs, for as long as the process lives. *)
Fixpoint run (s : state) (trace : list (input * env)) : state :=
  match trace with
  | [] => s
  | (i, e) :: trace' =>
      if exits (step s i e).2 then (step s i e).1
      else run (step s i e).1 trace'
  end.

Definition initial (d : database) : state := mk_state d ∅ ∅.

(** *** The server with the [auth] lookups interleaved *)

(** socket.io gives a new connection an id of its own: none that a session
    of the registry or a lookup in flight still carries. *)
Definition fresh_id (sv : server) (sid : jsstring) : bool :=
  bool_decide (connectedUsers (core sv) !! sid = None)
  && forallb (λ l, negb (bool_decide (l_socket l = sid))) (lookups sv).

(** One occurrence.  [AuthEvent] is [socket.on("auth")] up to the call of
    [pool.query]; [AuthLookup] is the store running the [SELECT] on the
    tables as they are then; [AuthCallback] is the [.then] callback, which a
    rejected lookup never reaches. *)
Definition serve (sv : server) (o : occurrence) (e : env) : server * output :=
  match o with
  | Handle i =>
      if match i with Connection sid => fresh_id sv sid | _ => true end
      then (mk_server (step (core sv) i e).1 (lookups sv), (step (core sv) i e).2)
      else (sv, mk_output [] None)
  | AuthEvent sid token =>
      match sockets (core sv) !! sid with
      | None => (sv, mk_output [] None)
      | Some _ =>
          match jwt_verify (now e) token with
          | None =>
              (sv, mk_output (socket_emit sid (auth_error (js "Token invalido")))
                             None)
          | Some id =>
              (mk_server (core sv) (lookups sv ++ [mk_lookup sid id lookup_sent]),
               mk_output [] None)
          end
      end
  | AuthLookup n =>
      match lookups sv !! n with
      | Some (mk_lookup sid id lookup_sent) =>
          let answer :=
            match fail e 0%nat with
            | Some err => lookup_rejected err
            | None => lookup_returned (users (db (core sv)) !! id)
            end in
          (mk_server (core sv) (<[n := mk_lookup sid id answer]> (lookups sv)),
           mk_output [] None)
      | _ => (sv, mk_output [] None)
      end
  | AuthCallback n =>
      match lookups sv !! n with
      | Some (mk_lookup sid id (lookup_returned rows)) =>
          let r := on_auth_rows (core sv) sid id rows (now e)
                                (negb (rejected (fail e 0%nat))) in
          (mk_server r.1 (delete n (lookups sv)), mk_output r.2 None)
      | Some (mk_lookup sid id (lookup_rejected err)) =>
          (mk_server (core sv) (delete n (lookups sv)),
           mk_outcome [] None (Some err))
      | _ => (sv, mk_output [] None)
      end
  end.

(** A sequence of occurrences, for as long as the process lives. *)
Fixpoint serve_run (sv : server) (trace : list (occurrence * env)) : server :=
  match trace with
  | [] => sv
  | (o, e) :: trace' =>
      if exits (serve sv o e).2 then (serve sv o e).1
      else serve_run (serve sv o e).1 trace'
  end.

(** The server as it starts: no socket, no session, no lookup in flight. *)
Definition start (d : database) : server := mk_server (initial d) [].

Definition served (sv : server) : Prop :=
  ∃ d trace, sv = serve_run (start d) trace.

(** The states the server can be in: started on any content of the tables
    and having handled any sequence of inputs, the lookups of the [auth]
    events interleaved with the other handlers in any way. *)
Definition reachable (s : state) : Prop :=
  ∃ sv, served sv ∧ core sv = s.

(** *** Notions the properties are stated with *)

(** The channels a socket is in: its rooms other than the room named by its
    own id, the one room the leave loop of the join handlers keeps. *)
Definition channels (sid : jsstring) (rooms : gset jsstring) : gset jsstring :=
  rooms ∖ {[ sid ]}.

Definition single_channel (s : state) : Prop :=
  ∀ sid rooms, sockets s !! sid = Some rooms → (size (channels sid rooms) ≤ 1)%nat.

Definition member (s : state) (sid room : jsstring) : Prop :=
  ∃ rooms, sockets s !! sid = Some rooms ∧ room ∈ rooms.

(** Every connected socket is in its own room. *)
Definition well_formed (s : state) : Prop :=
  ∀ sid rooms, sockets s !! sid = Some rooms → sid ∈ rooms.

(** The changes a handler makes to [sockets] and [connectedUsers], the
    tables left aside. *)
Inductive net_step (s : state) : state → Prop :=
| net_tables d :
    net_step s (mk_state d (connectedUsers s) (sockets s))
| net_connect d sid :
    sockets s !! sid = None →
    net_step s (mk_state d (connectedUsers s) (<[sid := {[ sid ]}]> (sockets s)))
| net_register d sid u :
    net_step s (mk_state d (<[sid := u]> (connectedUsers s)) (sockets s))
| net_switch d sid rooms room :
    sockets s !! sid = Some rooms →
    net_step s (mk_state d (connectedUsers s)
                  (<[sid := leave_others sid rooms ∪ {[ room ]}]> (sockets s)))
| net_close d sid :
    net_step s (mk_state d (delete sid (connectedUsers s)) (delete sid (sockets s))).



(** No connected socket has a session of [id]. *)
Definition no_live_session (id : jsstring) (s : state) : Prop :=
  ∀ sid u, connectedUsers s !! sid = Some u → uid u = id →
           sockets s !! sid = None.




(** The guard of the send handlers, in the spec's words: no text, text empty
    after trimming, or more than 500 characters. *)
Definition rejected_text (t : option jsstring) : Prop :=
  match t with
  | None => True
  | Some raw => trim raw = [] ∨ (500 < length raw)%nat
  end.

(** The history as the spec words it, for comparison with [select_history]:
    the last 80 messages of the channel, ascending by creation time. *)
Definition spec_last_80 (us : gmap jsstring user_row)
    (table : list message_row) (channel : jsstring) : list history_row :=
  let rows := order_by_created_at_asc
                (omap (join_users us)
                      (filter (λ m, m_channel m = channel) table)) in
  drop (length rows - 80) rows.

(** *** Notions of the further properties *)

(** The string is empty or starts with a character that [trim] keeps. *)
Definition starts_clean (s : jsstring) : Prop :=
  match s with
  | c :: _ => is_whitespace c = false
  | [] => True
  end.

(** The routes registered without [authMiddleware]. *)
Definition public_route (r : endpoint) : bool :=
  match r with
  | GET_root | GET_debug_env | POST_auth_google _ => true
  | _ => false
  end.

(** The routes behind [adminMiddleware]. *)
Definition admin_route (r : endpoint) : bool :=
  match r with
  | POST_admin_ban _ | POST_admin_unban _ | DELETE_admin_messages _ => true
  | _ => false
  end.

(** The statements a handler sends to the store while it handles the input
    [i] in the state [s], each with what the handler has established before
    sending it. *)
Inductive write (s : state) (i : input) (e : env) (d : database)
    : database → Prop :=
| write_upsert h tok g :
    i = Http (mk_request h (POST_auth_google (Some tok))) →
    verifyGoogleToken tok = inr g →
    write s i e d
      (upsert_user d (g_sub g) (or_else (g_name g) (js "Anonymous Therian"))
                   (or_else (g_picture g) []) (or_else (g_email g) [])
                   (now e)).1
| write_touch id :
    write s i e d (touch_last_seen id (now e) d)
| write_name h n me :
    i = Http (mk_request h (PUT_users_me_name (Some n))) →
    authMiddleware (now e) h = inr me →
    n ≠ [] → (length n ≤ 40)%nat →
    write s i e d (update_name me n d)
| write_photo h p me :
    i = Http (mk_request h (PUT_users_me_photo (Some p))) →
    authMiddleware (now e) h = inr me →
    p ≠ [] →
    write s i e d (update_photo me p d)
| write_flag h id (b : bool) :
    i = Http (mk_request h (if b then POST_admin_ban id
                            else POST_admin_unban id)) →
    authMiddleware (now e) h = inr ADMIN_UID → ADMIN_UID ≠ [] →
    write s i e d (update_is_banned id b d)
| write_message sid p user t :
    i = SendMessage sid p →
    connectedUsers s !! sid = Some user →
    accepted_text (text p) = Some t →
    write s i e d (insert_message d (target p) (uid user) t (now e)).1
| write_dm sid p user t :
    i = SendDm sid p →
    connectedUsers s !! sid = Some user →
    accepted_text (text p) = Some t →
    uid user ∈ split underscore (target p) →
    write s i e d (insert_dm_message d (target p) (uid user) t (now e)).1
| write_delete h msgId :
    i = Http (mk_request h (DELETE_admin_messages msgId)) →
    authMiddleware (now e) h = inr ADMIN_UID → ADMIN_UID ≠ [] →
    write s i e d (delete_message d msgId).1
| write_friends h me friendId :
    i = Http (mk_request h (POST_friends friendId)) →
    authMiddleware (now e) h = inr me →
    friendId ≠ me →
    write s i e d (insert_friends d me friendId).

(** The relation is symmetric and nobody is their own friend. *)
Definition friends_ok (d : database) : Prop :=
  (∀ a b, (a, b) ∈ friends d → (b, a) ∈ friends d) ∧
  (∀ a, (a, a) ∉ friends d).

(** The rows of a table are in increasing order of id and every id is below
    the next value of the table's sequence. *)
Definition ids_increasing (table : list message_row) (next : Z) : Prop :=
  StronglySorted (λ a b, m_id a < m_id b) table ∧
  Forall (λ m, m_id m < next) table.

(** Both message tables are so, each with its own sequence. *)
Definition sequences_ahead (d : database) : Prop :=
  ids_increasing (messages d) (messages_id_seq d) ∧
  ids_increasing (dm_messages d) (dm_messages_id_seq d).



(** The characters of a string as PostgreSQL's [char_length] counts them
    once the driver has sent the string as UTF-8: a high surrogate followed
    by a low one is one character, every other code unit is one. *)
Fixpoint char_length (s : jsstring) : nat :=
  match s with
  | [] => 0
  | c :: s' =>
      match s' with
      | c' :: s'' =>
          if is_high_surrogate c && is_low_surrogate c'
          then S (char_length s'') else S (char_length s')
      | [] => 1
      end
  end.

(** Each session of the registry, and each row that a lookup in flight has
    read, is of an identity with a stored row that has the same [premium]
    flag. *)
Definition backed (sv : server) : Prop :=
  (∀ sid u, connectedUsers (core sv) !! sid = Some u →
     ∃ row, users (db (core sv)) !! uid u = Some row
            ∧ u_premium row = premium u) ∧
  (∀ l row, l ∈ lookups sv → l_status l = lookup_returned (Some row) →
     ∃ row', users (db (core sv)) !! l_uid l = Some row'
             ∧ u_premium row' = u_premium row).

(** [user_id TEXT REFERENCES users(id)] of [messages] and [dm_messages]. *)
Definition authors_stored (d : database) : Prop :=
  ∀ row, row ∈ messages d ++ dm_messages d → is_Some (users d !! m_user_id row).

(** ** Properties *)

(** *** Strings *)

Lemma length_trimStart s : (length (trimStart s) ≤ length s)%nat.
Proof.
  induction s as [|c s IH]; simpl; [lia|].
  destruct (is_whitespace c); simpl; lia.
Qed.

Lemma length_trim s : (length (trim s) ≤ length s)%nat.
Proof.
  unfold trim, trimEnd. rewrite length_reverse.
  etrans; [apply length_trimStart|]. rewrite length_reverse.
  apply length_trimStart.
Qed.

(** Induction on strings that follows [utf8_round_trip]: one unit, or the
    first of two, at a time. *)
Lemma units_ind (P : jsstring → Prop) :
  P [] → (∀ c, P [c]) →
  (∀ c c' s, P s → P (c' :: s) → P (c :: c' :: s)) →
  ∀ s, P s.
Proof.
  intros Hnil Hone Htwo.
  cut (∀ n s, (length s ≤ n)%nat → P s).
  { intros H s. by apply (H (length s)). }
  induction n as [|n IH]; intros [|c [|c' s]] Hn; simpl in *; try done;
    try lia.
  apply Htwo; apply IH; simpl; lia.
Qed.

Lemma length_utf8_round_trip s : length (utf8_round_trip s) = length s.
Proof.
  induction s as [|c|c c' s IH1 IH2] using units_ind; [done| |].
  - simpl. by repeat case_match.
  - simpl in *. repeat case_match; simpl in *; lia.
Qed.

Lemma utf8_round_trip_nil s : utf8_round_trip s = [] ↔ s = [].
Proof.
  split; [|by intros ->]. intros H%(f_equal length).
  rewrite length_utf8_round_trip in H. by destruct s.
Qed.

Lemma surrogate_not_replacement c :
  is_high_surrogate c || is_low_surrogate c = true → c ≠ 65533%N.
Proof. by intros H ->. Qed.

(** The round trip changes a string exactly when a surrogate in it has no
    partner. *)
Lemma utf8_round_trip_isWellFormed s :
  utf8_round_trip s = s ↔ isWellFormed s = true.
Proof.
  induction s as [|c|c c' s IH1 IH2] using units_ind; [done| |].
  - simpl. destruct (is_high_surrogate c) eqn:E1.
    { split; [|done]. intros [= H]. exfalso. symmetry in H. revert H.
      apply surrogate_not_replacement. by rewrite E1. }
    destruct (is_low_surrogate c) eqn:E2; simpl; [|done].
    split; [|done]. intros [= H]. exfalso. symmetry in H. revert H.
    apply surrogate_not_replacement. by rewrite E2, orb_true_r.
  - change (utf8_round_trip (c :: c' :: s))
      with (if is_high_surrogate c then
              if is_low_surrogate c' then c :: c' :: utf8_round_trip s
              else 65533%N :: utf8_round_trip (c' :: s)
            else if is_low_surrogate c then 65533%N :: utf8_round_trip (c' :: s)
            else c :: utf8_round_trip (c' :: s)).
    change (isWellFormed (c :: c' :: s))
      with (if is_high_surrogate c then is_low_surrogate c' && isWellFormed s
            else negb (is_low_surrogate c) && isWellFormed (c' :: s)).
    destruct (is_high_surrogate c) eqn:E1.
    + destruct (is_low_surrogate c') eqn:E2; cbn [andb negb].
      * rewrite <- IH1. split; [by intros [= ?]|intros H; by rewrite H].
      * split; [|done]. intros [= H _]. exfalso. symmetry in H. revert H.
        apply surrogate_not_replacement. by rewrite E1.
    + destruct (is_low_surrogate c) eqn:E2; cbn [andb negb].
      * split; [|done]. intros [= H _]. exfalso. symmetry in H. revert H.
        apply surrogate_not_replacement. by rewrite E2, orb_true_r.
      * rewrite <- IH2. split; [by intros [= ?]|intros H; by rewrite H].
Qed.

Lemma accepted_text_spec t t' :
  accepted_text t = Some t' ↔
  ∃ raw, t = Some raw ∧ t' = trim raw ∧ raw ≠ [] ∧ trim raw ≠ []
         ∧ (length raw ≤ 500)%nat.
Proof.
  unfold accepted_text. destruct t as [raw|]; [|naive_solver].
  destruct (bool_decide (raw = [])) eqn:E1; simpl.
  { apply bool_decide_eq_true in E1. naive_solver. }
  destruct (bool_decide (trim raw = [])) eqn:E2; simpl.
  { apply bool_decide_eq_true in E2. naive_solver. }
  apply bool_decide_eq_false in E1, E2.
  destruct (500 <? Z.of_nat (length raw)) eqn:E3.
  - apply Z.ltb_lt in E3. split; [done|]. intros (? & [= <-] & _ & _ & _ & ?). lia.
  - apply Z.ltb_ge in E3. split.
    + intros [= <-]. exists raw. repeat split; try done. lia.
    + intros (? & [= <-] & -> & _). done.
Qed.

Lemma accepted_text_None t : accepted_text t = None ↔ rejected_text t.
Proof.
  unfold rejected_text.
  destruct (accepted_text t) as [t'|] eqn:E.
  - apply accepted_text_spec in E as (raw & -> & _ & _ & ? & ?).
    split; [done|]. intros [?|?]; [done|lia].
  - split; [|done]. intros _. destruct t as [raw|]; [|done].
    unfold accepted_text in E.
    destruct (bool_decide (raw = [])) eqn:E1; simpl in E.
    { apply bool_decide_eq_true in E1 as ->. by left. }
    destruct (bool_decide (trim raw = [])) eqn:E2; simpl in E.
    { apply bool_decide_eq_true in E2. by left. }
    destruct (500 <? Z.of_nat (length raw)) eqn:E3; [|done].
    apply Z.ltb_lt in E3. right. lia.
Qed.

(** *** The join and send handlers *)

Lemma includes_elem_of xs x : includes xs x = true ↔ x ∈ xs.
Proof. unfold includes. apply bool_decide_eq_true. Qed.

Lemma includes_not_elem_of xs x : includes xs x = false ↔ x ∉ xs.
Proof. unfold includes. apply bool_decide_eq_false. Qed.

Lemma insert_message_grows d roomId user_id t time :
  messages (insert_message d roomId user_id t time).1 =
    messages d ++ [(insert_message d roomId user_id t time).2].
Proof. done. Qed.

Lemma insert_dm_message_grows d chatId user_id t time :
  dm_messages (insert_dm_message d chatId user_id t time).1 =
    dm_messages d ++ [(insert_dm_message d chatId user_id t time).2].
Proof. done. Qed.

Lemma app_singleton_neq {A} (l : list A) x : l ++ [x] ≠ l.
Proof.
  intros H. apply (f_equal length) in H. rewrite length_app in H. simpl in H. lia.
Qed.

Lemma set_db_insert_message_neq s roomId user_id t time :
  set_db (λ _, (insert_message (db s) roomId user_id t time).1) s ≠ s.
Proof.
  intros H. apply (f_equal (λ x, messages (db x))) in H. simpl in H.
  by apply app_singleton_neq in H.
Qed.

Lemma set_db_insert_dm_message_neq s chatId user_id t time :
  set_db (λ _, (insert_dm_message (db s) chatId user_id t time).1) s ≠ s.
Proof.
  intros H. apply (f_equal (λ x, dm_messages (db x))) in H. simpl in H.
  by apply app_singleton_neq in H.
Qed.

(** The room handler returns without effect exactly when the socket has no
    session or the guard on the text fires. *)
Lemma on_send_message_dropped s sid p e :
  on_send_message s sid p e = (s, []) ↔
  connectedUsers s !! sid = None ∨ accepted_text (text p) = None.
Proof.
  unfold on_send_message.
  destruct (connectedUsers s !! sid) as [user|]; [|naive_solver].
  destruct (accepted_text (text p)) as [t|]; [|naive_solver].
  split; [|naive_solver]. intros H. exfalso.
  destruct (fail e 0%nat); [done|]. simpl in H.
  injection H as H _. by apply set_db_insert_message_neq in H.
Qed.

Lemma on_send_dm_dropped s sid p e :
  on_send_dm s sid p e = (s, []) ↔
  connectedUsers s !! sid = None ∨ accepted_text (text p) = None ∨
  ∃ user, connectedUsers s !! sid = Some user
          ∧ uid user ∉ split underscore (target p).
Proof.
  unfold on_send_dm.
  destruct (connectedUsers s !! sid) as [user|]; [|naive_solver].
  destruct (accepted_text (text p)) as [t|]; [|naive_solver].
  destruct (includes _ _) eqn:E; simpl.
  - apply includes_elem_of in E. split; [|naive_solver]. intros H. exfalso.
    destruct (fail e 0%nat); [done|]. simpl in H.
    injection H as H _. by apply set_db_insert_dm_message_neq in H.
  - apply includes_not_elem_of in E. naive_solver.
Qed.

(** C2 (amended).  A send over the persistent connection is dropped silently
    (the state is unchanged and no event is emitted, to the sender or to
    anyone) exactly when the socket has no registered session, or the text is
    missing, empty after trimming or longer than 500 characters, or, for a
    direct send only, the session's identity id is not one of the parts of
    the chat id split at "_".  Room sends check no membership, and direct
    sends do not look at the rooms the socket has joined. *)
Theorem send_dropped_exactly_when s sid p e :
  (on_send_message s sid p e = (s, []) ↔
     connectedUsers s !! sid = None ∨ rejected_text (text p)) ∧
  (on_send_dm s sid p e = (s, []) ↔
     connectedUsers s !! sid = None ∨ rejected_text (text p) ∨
     ∃ user, connectedUsers s !! sid = Some user
             ∧ uid user ∉ split underscore (target p)).
Proof.
  rewrite <- accepted_text_None. split.
  - apply on_send_message_dropped.
  - apply on_send_dm_dropped.
Qed.

(** C3 (amended).  On a connected socket, [join_dm] never emits anything;
    it performs the join (leave every other channel, enter "dm_" + chatId)
    when the socket has a session whose identity id is one of the parts of
    the chat id split at "_", however many parts there are, and in every
    other case it leaves the state, and so the socket's membership, as it
    was. *)
Theorem join_dm_when_id_listed s sid chatId e rooms :
  sockets s !! sid = Some rooms →
  (step s (JoinDm sid chatId) e).2 = mk_output [] None ∧
  ((∃ user, connectedUsers s !! sid = Some user
            ∧ uid user ∈ split underscore chatId) →
   (step s (JoinDm sid chatId) e).1 =
     set_sockets <[sid := leave_others sid rooms ∪ {[ js "dm_" ++ chatId ]}]> s) ∧
  (¬ (∃ user, connectedUsers s !! sid = Some user
              ∧ uid user ∈ split underscore chatId) →
   (step s (JoinDm sid chatId) e).1 = s).
Proof.
  intros Hs. unfold step. simpl. rewrite Hs. simpl.
  split; [done|]. unfold on_join_dm, switch_to. split.
  - intros (user & -> & Hin). apply includes_elem_of in Hin. rewrite Hin. simpl.
    by rewrite Hs.
  - intros Hno. destruct (connectedUsers s !! sid) as [user|]; [|done].
    destruct (includes _ _) eqn:E; [|done].
    apply includes_elem_of in E. destruct Hno. eauto.
Qed.

(** C7.  For a valid send (the socket has a session, the text passes the
    guard, for a direct send the sender is listed in the chat id, and the
    store accepts the insert), the insert adds one row to the channel's
    table, with the next value of the table's sequence as id and the store's
    clock as creation timestamp; every socket that is in the channel
    receives the broadcast of a message with that id and that timestamp;
    every event the handler emits is such a broadcast; and the handler's
    result is the same for any other payload with the same target and text,
    whatever further properties (an id, a timestamp) the client put in
    it. *)
Theorem broadcast_carries_persisted_id_and_time s sid p e user t :
  connectedUsers s !! sid = Some user →
  accepted_text (text p) = Some t →
  fail e 0%nat = None →
  (let row := (insert_message (db s) (target p) (uid user) t (now e)).2 in
   messages (db (on_send_message s sid p e).1) = messages (db s) ++ [row] ∧
   m_id row = messages_id_seq (db s) ∧ m_created_at row = now e ∧
   (∀ rcpt, member s rcpt (js "room_" ++ target p) →
      ∃ m, (rcpt, new_message m) ∈ (on_send_message s sid p e).2 ∧
           w_id m = m_id row ∧ w_created_at m = m_created_at row) ∧
   (∀ r ev, (r, ev) ∈ (on_send_message s sid p e).2 →
      ∃ m, ev = new_message m ∧ w_id m = m_id row
           ∧ w_created_at m = m_created_at row) ∧
   (∀ p', target p' = target p → text p' = text p →
      on_send_message s sid p' e = on_send_message s sid p e)) ∧
  (uid user ∈ split underscore (target p) →
   let row := (insert_dm_message (db s) (target p) (uid user) t (now e)).2 in
   dm_messages (db (on_send_dm s sid p e).1) = dm_messages (db s) ++ [row] ∧
   m_id row = dm_messages_id_seq (db s) ∧ m_created_at row = now e ∧
   (∀ rcpt, member s rcpt (js "dm_" ++ target p) →
      ∃ m, (rcpt, new_dm m) ∈ (on_send_dm s sid p e).2 ∧
           w_id m = m_id row ∧ w_created_at m = m_created_at row) ∧
   (∀ r ev, (r, ev) ∈ (on_send_dm s sid p e).2 →
      ∃ m, ev = new_dm m ∧ w_id m = m_id row
           ∧ w_created_at m = m_created_at row) ∧
   (∀ p', target p' = target p → text p' = text p →
      on_send_dm s sid p' e = on_send_dm s sid p e)).
Proof.
  intros Hu Ht Hf.
  assert (∀ s0 room ev rcpt, member s rcpt room → sockets s0 = sockets s →
            (rcpt, ev) ∈ io_to_emit s0 room ev) as Hmem.
  { intros s0 room ev rcpt (rooms & Hr & Hin) Hs0.
    unfold io_to_emit, members. rewrite Hs0.
    apply list_elem_of_fmap. exists rcpt. split; [done|].
    apply list_elem_of_fmap. exists (rcpt, rooms). split; [done|].
    apply list_elem_of_filter. split; [done|]. by apply elem_of_map_to_list. }
  split.
  - unfold on_send_message. rewrite Hu, Ht, Hf. simpl.
    split; [done|]. split; [done|]. split; [done|]. split; [|split].
    + intros rcpt Hrcpt. eexists. split; [by apply Hmem|done].
    + intros r ev. unfold io_to_emit.
      intros (? & [= -> ->] & _)%list_elem_of_fmap. eauto.
    + intros p' Htg Htx. unfold on_send_message.
      by rewrite Htg, Htx, Ht.
  - intros Hin%includes_elem_of.
    unfold on_send_dm. rewrite Hu, Ht, Hin, Hf. simpl.
    split; [done|]. split; [done|]. split; [done|]. split; [|split].
    + intros rcpt Hrcpt. eexists. split; [by apply Hmem|done].
    + intros r ev. unfold io_to_emit.
      intros (? & [= -> ->] & _)%list_elem_of_fmap. eauto.
    + intros p' Htg Htx. unfold on_send_dm.
      by rewrite Htg, Htx, Ht, ?Hin.
Qed.

(** *** Closing sockets and the eviction loop *)

Lemma on_disconnect_sockets s sid t r :
  sockets (on_disconnect s sid t r) = delete sid (sockets s).
Proof.
  unfold on_disconnect. simpl.
  destruct (connectedUsers s !! sid); [destruct r|]; done.
Qed.

Lemma on_disconnect_connectedUsers s sid t r :
  connectedUsers (on_disconnect s sid t r) = delete sid (connectedUsers s).
Proof.
  unfold on_disconnect. simpl.
  destruct (connectedUsers s !! sid) eqn:E; [destruct r; done|].
  simpl. by rewrite delete_id.
Qed.

Lemma on_disconnect_db s sid t r :
  db (on_disconnect s sid t r) = db s ∨
  ∃ id, db (on_disconnect s sid t r) = touch_last_seen id t (db s).
Proof.
  unfold on_disconnect. simpl.
  destruct (connectedUsers s !! sid); [destruct r|]; simpl; eauto.
Qed.

(** What one round of the loop does to the accumulator. *)
Lemma evict_cases id t r acc entry :
  evict id t r acc entry = acc ∨
  (uid entry.2 = id ∧
   evict id t r acc entry =
     (match sockets acc.1 !! entry.1 with
      | Some _ => on_disconnect acc.1 entry.1 t r
      | None => acc.1
      end, acc.2 ++ io_to_emit acc.1 entry.1 banned)).
Proof.
  unfold evict. case_bool_decide; [right|left]; done.
Qed.

(** Induction over the loop: a property of (state, emitted events) that
    survives closing the socket of an entry of the list after notifying its
    room holds at the end of the loop. *)
Lemma foldl_evict_ind (P : state * list delivery → Prop) id t r l :
  (∀ s out entry, entry ∈ l → uid entry.2 = id → P (s, out) →
     is_Some (sockets s !! entry.1) →
     P (on_disconnect s entry.1 t r, out ++ io_to_emit s entry.1 banned)) →
  (∀ s out entry, entry ∈ l → P (s, out) → sockets s !! entry.1 = None →
     P (s, out ++ io_to_emit s entry.1 banned)) →
  ∀ acc, P acc → P (foldl (evict id t r) acc l).
Proof.
  induction l as [|entry l IH]; intros Hclose Hgone acc Hacc; [done|].
  simpl. apply IH.
  - intros ??? Hin. apply Hclose. by right.
  - intros ??? Hin. apply Hgone. by right.
  - destruct (evict_cases id t r acc entry) as [->|[Hid ->]]; [done|].
    destruct acc as [s out]. simpl.
    destruct (sockets s !! entry.1) eqn:E.
    + apply Hclose; eauto. by left.
    + apply Hgone; eauto. by left.
Qed.

(** *** The callback of the lookup *)

(** The callback leaves the state as it is, or registers the session it
    made of the row, with or without the [last_seen] update. *)
Lemma on_auth_rows_cases s sid id rows t r :
  (on_auth_rows s sid id rows t r).1 = s ∨
  ∃ row d,
    rows = Some row ∧ u_is_banned row = false ∧
    (d = db s ∨ d = touch_last_seen id t (db s)) ∧
    (on_auth_rows s sid id rows t r).1 =
      mk_state d
        (<[sid := mk_session id (u_name row) (u_photo row) (u_premium row)]>
           (connectedUsers s))
        (sockets s).
Proof.
  unfold on_auth_rows. destruct rows as [row|]; [|by left].
  destruct (u_is_banned row) eqn:E; [by left|right].
  exists row. destruct r; eexists; (split; [done|]); (split; [done|]);
    simpl; eauto.
Qed.


(** *** How a step changes the sockets and the registry *)

Lemma net_tables_eq s s' :
  connectedUsers s' = connectedUsers s → sockets s' = sockets s → net_step s s'.
Proof. destruct s'. simpl. intros -> ->. constructor. Qed.

Lemma on_disconnect_net s sid t r : net_step s (on_disconnect s sid t r).
Proof.
  pose proof (on_disconnect_sockets s sid t r) as H1.
  pose proof (on_disconnect_connectedUsers s sid t r) as H2.
  destruct (on_disconnect s sid t r). simpl in *. subst. constructor.
Qed.

Lemma switch_to_net s sid room : rtc net_step s (switch_to s sid room).
Proof.
  unfold switch_to. destruct (sockets s !! sid) eqn:E; [|done].
  apply rtc_once. by apply (net_switch s (db s)).
Qed.

Lemma foldl_evict_net id t r l s0 s out :
  rtc net_step s0 s → rtc net_step s0 (foldl (evict id t r) (s, out) l).1.
Proof.
  intros H.
  apply (foldl_evict_ind (λ acc, rtc net_step s0 acc.1) id t r); [| |done].
  - intros s1 out1 entry _ _ H1 _. simpl in *.
    eapply rtc_r; [done|]. apply on_disconnect_net.
  - done.
Qed.

Lemma on_auth_rows_net s sid id rows t r :
  rtc net_step s (on_auth_rows s sid id rows t r).1.
Proof.
  destruct (on_auth_rows_cases s sid id rows t r)
    as [->|(? & ? & _ & _ & _ & ->)]; [done|].
  apply rtc_once, net_register.
Qed.

Lemma step_net s i e : rtc net_step s (step s i e).1.
Proof.
  destruct i as [sid|sid token|sid roomId|sid chatId|sid p|sid p|sid|[h ep]];
    unfold step; simpl.
  - destruct (sockets s !! sid) eqn:E; simpl; [done|].
    apply rtc_once. by apply (net_connect s (db s)).
  - destruct (sockets s !! sid) eqn:E; simpl; [|done].
    unfold on_auth.
    destruct (jwt_verify (now e) token) as [id|]; [|done].
    destruct (fail e 0%nat); [done|]. simpl. apply on_auth_rows_net.
  - destruct (sockets s !! sid) eqn:E; simpl; [|done]. apply switch_to_net.
  - destruct (sockets s !! sid) eqn:E; simpl; [|done].
    unfold on_join_dm. repeat case_match; try done. apply switch_to_net.
  - destruct (sockets s !! sid) eqn:E; simpl; [|done].
    unfold on_send_message. repeat case_match; simpl; try done.
    all: apply rtc_once; by apply net_tables_eq.
  - destruct (sockets s !! sid) eqn:E; simpl; [|done].
    unfold on_send_dm. repeat case_match; simpl; try done.
    all: apply rtc_once; by apply net_tables_eq.
  - destruct (sockets s !! sid) eqn:E; simpl; [|done].
    apply rtc_once, on_disconnect_net.
  - unfold handle_request, authenticated_route, post_auth_google.
    repeat case_match; simplify_eq/=; try done.
    all: try (apply rtc_once; by apply net_tables_eq).
    match goal with
    | H : foldl _ _ _ = (?s1, ?out) |- _ =>
        change s1 with (s1, out).1; rewrite <- H
    end.
    apply foldl_evict_net. apply rtc_once. by apply net_tables_eq.
Qed.

Lemma run_invariant (P : state → Prop) :
  (∀ s i e, P s → P (step s i e).1) →
  ∀ trace s, P s → P (run s trace).
Proof.
  intros Hstep trace. induction trace as [|[i e] trace IH]; intros s Hs; [done|].
  simpl. destruct (exits _); [by apply Hstep|]. apply IH, Hstep, Hs.
Qed.

Lemma net_invariant (P : state → Prop) :
  (∀ s s', P s → net_step s s' → P s') →
  ∀ s i e, P s → P (step s i e).1.
Proof.
  intros Hnet s i e Hs. induction (step_net s i e); eauto.
Qed.

(** *** Occurrences *)

Lemma serve_run_invariant (P : server → Prop) :
  (∀ sv o e, P sv → P (serve sv o e).1) →
  ∀ trace sv, P sv → P (serve_run sv trace).
Proof.
  intros Hstep trace. induction trace as [|[o e] trace IH]; intros sv Hsv;
    [done|].
  simpl. destruct (exits _); [by apply Hstep|]. apply IH, Hstep, Hsv.
Qed.

Lemma served_invariant (P : server → Prop) :
  (∀ d, P (start d)) →
  (∀ sv o e, P sv → P (serve sv o e).1) →
  ∀ sv, served sv → P sv.
Proof.
  intros Hinit Hstep sv (d & trace & ->). by apply serve_run_invariant.
Qed.

(** What an occurrence does to the state: nothing, what an input handled to
    completion does, or what the callback of a lookup does. *)
Lemma serve_core sv o e :
  core (serve sv o e).1 = core sv ∨
  (∃ i, core (serve sv o e).1 = (step (core sv) i e).1) ∨
  (∃ sid id rows r,
     core (serve sv o e).1 = (on_auth_rows (core sv) sid id rows (now e) r).1).
Proof.
  destruct o as [i|sid token|n|n]; simpl.
  - case_match; simpl; eauto.
  - repeat case_match; simpl; eauto.
  - repeat case_match; simpl; eauto.
  - repeat case_match; simpl; eauto 10.
Qed.

(** [step] handles an [auth] event as the three moments one after the
    other: the event, the store's answer to the lookup it has sent, and the
    callback of that lookup. *)
Lemma auth_at_once sv sid token e id :
  is_Some (sockets (core sv) !! sid) →
  jwt_verify (now e) token = Some id →
  let n := length (lookups sv) in
  let sv1 := (serve sv (AuthEvent sid token) e).1 in
  let sv2 := (serve sv1 (AuthLookup n) e).1 in
  serve sv2 (AuthCallback n) (mk_env (now e) (λ k, fail e (S k)))
  = serve sv (Handle (Auth sid token)) e.
Proof.
  intros [rooms Hs] Hj. simpl. rewrite Hs, Hj. simpl.
  rewrite lookup_app_r by done. rewrite Nat.sub_diag. simpl.
  rewrite insert_app_r_alt by done. rewrite Nat.sub_diag. simpl.
  rewrite lookup_app_r by done. rewrite Nat.sub_diag. simpl.
  assert (delete (length (lookups sv))
                 (lookups sv ++ [mk_lookup sid id
                    match fail e 0%nat with
                    | Some err => lookup_rejected err
                    | None => lookup_returned (users (db (core sv)) !! id)
                    end]) = lookups sv) as Hdel.
  { rewrite delete_middle. by rewrite app_nil_r. }
  unfold step. simpl. rewrite ?Hs. simpl. unfold on_auth. rewrite ?Hj.
  destruct (fail e 0%nat) as [err|]; simpl; simpl in Hdel; by rewrite Hdel.
Qed.

Lemma reachable_invariant (P : state → Prop) :
  (∀ d, P (initial d)) →
  (∀ s i e, P s → P (step s i e).1) →
  (∀ s sid id rows t r, P s → P (on_auth_rows s sid id rows t r).1) →
  ∀ s, reachable s → P s.
Proof.
  intros Hinit Hstep Hrows s (sv & Hsv & <-). revert sv Hsv.
  apply (served_invariant (λ sv, P (core sv))); [done|].
  intros sv o e Hsv.
  destruct (serve_core sv o e) as [->|[[i ->]|(sid & id & rows & r & ->)]];
    eauto.
Qed.

Lemma reachable_net_invariant (P : state → Prop) :
  (∀ d, P (initial d)) →
  (∀ s s', P s → net_step s s' → P s') →
  ∀ s, reachable s → P s.
Proof.
  intros Hinit Hnet. apply reachable_invariant; [done|by apply net_invariant|].
  intros s sid id rows t r Hs.
  induction (on_auth_rows_net s sid id rows t r); eauto.
Qed.

(** *** Invariants of the sockets and the registry *)

Lemma well_formed_net s s' : well_formed s → net_step s s' → well_formed s'.
Proof.
  intros Hown Hstep. destruct Hstep; simpl; intros sid' rooms'; simpl.
  - apply Hown.
  - intros [[<- <-]|[_ ?]]%lookup_insert_Some; [set_solver|eauto].
  - apply Hown.
  - intros [[<- <-]|[_ ?]]%lookup_insert_Some; [|eauto].
    apply elem_of_union_l, elem_of_filter. eauto.
  - intros [_ ?]%lookup_delete_Some. eauto.
Qed.

Lemma reachable_well_formed s : reachable s → well_formed s.
Proof.
  revert s. apply reachable_net_invariant.
  - intros d sid rooms. simpl. by rewrite lookup_empty.
  - apply well_formed_net.
Qed.

Lemma channels_after_switch sid rooms room :
  channels sid (leave_others sid rooms ∪ {[ room ]}) ⊆ {[ room ]}.
Proof.
  unfold channels, leave_others. intros x.
  rewrite elem_of_difference, elem_of_union, elem_of_filter.
  set_solver.
Qed.

Lemma single_channel_net s s' : single_channel s → net_step s s' → single_channel s'.
Proof.
  intros Hs Hstep. destruct Hstep; intros sid' rooms'; simpl.
  - apply Hs.
  - intros [[<- <-]|[_ ?]]%lookup_insert_Some; [|eauto].
    unfold channels. replace ({[sid]} ∖ {[sid]} : gset jsstring) with (∅ : gset jsstring)
      by set_solver.
    rewrite size_empty. lia.
  - apply Hs.
  - intros [[<- <-]|[_ ?]]%lookup_insert_Some; [|eauto].
    etrans; [apply subseteq_size, channels_after_switch|].
    by rewrite size_singleton.
  - intros [_ ?]%lookup_delete_Some. eauto.
Qed.

(** Inputs that arrive on other sockets, and HTTP requests, leave a socket
    without a session where it is: in the same rooms, still without one. *)
Lemma step_frame s i e sid :
  input_socket i ≠ Some sid →
  connectedUsers s !! sid = None →
  sockets (step s i e).1 !! sid = sockets s !! sid ∧
  connectedUsers (step s i e).1 !! sid = None.
Proof.
  intros Hi Hu.
  destruct i as [sid'|sid' token|sid' roomId|sid' chatId|sid' p|sid' p|sid'|[h ep]];
    unfold step; simpl in *.
  - destruct (sockets s !! sid') eqn:E; simpl; [done|].
    rewrite lookup_insert_ne; [done|congruence].
  - destruct (sockets s !! sid') eqn:E; simpl; [|done].
    unfold on_auth, on_auth_rows. repeat case_match; simpl; try done.
    all: rewrite lookup_insert_ne; [done|congruence].
  - destruct (sockets s !! sid') eqn:E; simpl; [|done].
    unfold on_join_room, switch_to. rewrite E. simpl.
    rewrite lookup_insert_ne; [done|congruence].
  - destruct (sockets s !! sid') eqn:E; simpl; [|done].
    unfold on_join_dm, switch_to. rewrite E.
    repeat case_match; simpl; try done.
    rewrite lookup_insert_ne; [done|congruence].
  - destruct (sockets s !! sid') eqn:E; simpl; [|done].
    unfold on_send_message. repeat case_match; simplify_eq/=; done.
  - destruct (sockets s !! sid') eqn:E; simpl; [|done].
    unfold on_send_dm. repeat case_match; simplify_eq/=; done.
  - destruct (sockets s !! sid') eqn:E; simpl; [|done].
    rewrite on_disconnect_sockets, on_disconnect_connectedUsers.
    rewrite !lookup_delete_ne by congruence. done.
  - unfold handle_request, authenticated_route, post_auth_google.
    repeat case_match; simplify_eq/=; try done.
    match goal with
    | H : foldl _ _ ?l = (?s1, ?out) |- _ =>
        change s1 with (s1, out).1; rewrite <- H; clear H
    end.
    apply (foldl_evict_ind
             (λ acc, sockets acc.1 !! sid = sockets s !! sid
                     ∧ connectedUsers acc.1 !! sid = None)); [| |done].
    + intros sa outa [sida ua] Hin%elem_of_map_to_list _ [Ha Hb] _. simpl in *.
      rewrite on_disconnect_sockets, on_disconnect_connectedUsers.
      rewrite !lookup_delete_ne by congruence. done.
    + done.
Qed.

(** C8.  In every state the server can reach, each connection is in at most
    one channel (a room of the socket other than the room of its own id),
    and whatever input is handled next this is still so; a join first
    empties the socket's channels and then enters the new one, so that
    afterwards the socket's only channel is the one just joined. *)
Theorem one_channel_per_connection s :
  reachable s →
  single_channel s ∧
  (∀ i e, single_channel (step s i e).1) ∧
  (∀ sid rooms, sockets s !! sid = Some rooms →
     channels sid (leave_others sid rooms) = ∅ ∧
     (∀ roomId e,
        sockets (step s (JoinRoom sid roomId) e).1 !! sid =
          Some (leave_others sid rooms ∪ {[ js "room_" ++ roomId ]}) ∧
        channels sid (leave_others sid rooms ∪ {[ js "room_" ++ roomId ]})
          ⊆ {[ js "room_" ++ roomId ]}) ∧
     (∀ chatId e,
        (step s (JoinDm sid chatId) e).1 = s ∨
        sockets (step s (JoinDm sid chatId) e).1 !! sid =
          Some (leave_others sid rooms ∪ {[ js "dm_" ++ chatId ]}) ∧
        channels sid (leave_others sid rooms ∪ {[ js "dm_" ++ chatId ]})
          ⊆ {[ js "dm_" ++ chatId ]})).
Proof.
  intros Hr.
  assert (single_channel s) as Hs.
  { revert s Hr. apply reachable_net_invariant.
    - intros d sid rooms. simpl. by rewrite lookup_empty.
    - apply single_channel_net. }
  split; [done|]. split.
  { intros i e. revert Hs. apply net_invariant.
    intros s0 s' H1 H2. by eapply single_channel_net. }
  intros sid rooms Hrooms. split.
  { unfold channels, leave_others. apply set_eq. intros x.
    rewrite elem_of_difference, elem_of_filter. set_solver. }
  split.
  - intros roomId e. split; [|apply channels_after_switch].
    unfold step. simpl. rewrite Hrooms. simpl.
    unfold on_join_room, switch_to. rewrite Hrooms. simpl.
    by rewrite lookup_insert_eq.
  - intros chatId e. unfold step. simpl. rewrite Hrooms. simpl.
    unfold on_join_dm, switch_to. rewrite Hrooms.
    destruct (connectedUsers s !! sid); [|by left].
    destruct (negb _); [by left|right]. simpl.
    split; [by rewrite lookup_insert_eq|apply channels_after_switch].
Qed.

Lemma member_members s sid room : member s sid room ↔ sid ∈ members s room.
Proof.
  unfold member, members. rewrite list_elem_of_fmap. split.
  - intros (rooms & Hs & Hin). exists (sid, rooms). split; [done|].
    apply list_elem_of_filter. split; [done|]. by apply elem_of_map_to_list.
  - intros ([sid' rooms] & -> & [Hin Hs%elem_of_map_to_list]%list_elem_of_filter).
    eauto.
Qed.

Lemma member_receives s sid room ev :
  member s sid room → (sid, ev) ∈ io_to_emit s room ev.
Proof.
  intros H%member_members. unfold io_to_emit.
  apply list_elem_of_fmap. eauto.
Qed.

Lemma run_frame sid trace : ∀ s,
  Forall (λ ie : input * env, input_socket ie.1 ≠ Some sid) trace →
  connectedUsers s !! sid = None →
  sockets (run s trace) !! sid = sockets s !! sid ∧
  connectedUsers (run s trace) !! sid = None.
Proof.
  induction trace as [|[i e] trace IH]; intros s Htrace Hu; [done|].
  apply Forall_cons in Htrace as [Hi Htrace]. simpl in *.
  destruct (step_frame s i e sid Hi Hu) as [H1 H2].
  destruct (exits _); [done|].
  destruct (IH _ Htrace H2) as [H3 H4]. split; [congruence|done].
Qed.

(** C9.  A connected socket that has no session joins a room all the same:
    after [join_room] it is a member of "room_" + roomId, and as long as
    nothing more arrives on that socket it stays a member without a
    session, whatever the other connections and the HTTP callers do; every
    event emitted to the room is delivered to it, in particular the
    broadcast of each message sent to the room, which carries the sender's
    id and the text as the store returned it; and its own sends are
    dropped. *)
Theorem join_room_without_session s sid rooms roomId e trace :
  sockets s !! sid = Some rooms →
  connectedUsers s !! sid = None →
  Forall (λ ie : input * env, input_socket ie.1 ≠ Some sid) trace →
  member (step s (JoinRoom sid roomId) e).1 sid (js "room_" ++ roomId) ∧
  let s' := run (step s (JoinRoom sid roomId) e).1 trace in
  member s' sid (js "room_" ++ roomId) ∧
  connectedUsers s' !! sid = None ∧
  (∀ ev, (sid, ev) ∈ io_to_emit s' (js "room_" ++ roomId) ev) ∧
  (∀ sender p e' user t,
     is_Some (sockets s' !! sender) →
     connectedUsers s' !! sender = Some user →
     target p = roomId →
     accepted_text (text p) = Some t →
     fail e' 0%nat = None →
     ∃ m, w_text m = utf8_round_trip t ∧ w_user_id m = uid user ∧
          (sid, new_message m) ∈ deliveries (step s' (SendMessage sender p) e').2) ∧
  (∀ p e', step s' (SendMessage sid p) e' = (s', mk_output [] None) ∧
           step s' (SendDm sid p) e' = (s', mk_output [] None)).
Proof.
  intros Hs Hu Htrace.
  assert (sockets (step s (JoinRoom sid roomId) e).1 !! sid =
            Some (leave_others sid rooms ∪ {[ js "room_" ++ roomId ]}) ∧
          connectedUsers (step s (JoinRoom sid roomId) e).1 !! sid = None)
    as [Hs1 Hu1].
  { unfold step. simpl. rewrite Hs. simpl.
    unfold on_join_room, switch_to. rewrite Hs. simpl.
    by rewrite lookup_insert_eq. }
  assert (∀ s0, sockets s0 !! sid =
                  Some (leave_others sid rooms ∪ {[ js "room_" ++ roomId ]}) →
                member s0 sid (js "room_" ++ roomId)) as Hmem.
  { intros s0 H0. eexists. split; [done|]. set_solver. }
  split; [by apply Hmem|].
  destruct (run_frame sid trace _ Htrace Hu1) as [Hs2 Hu2].
  rewrite Hs1 in Hs2. intros s'. fold s' in Hs2, Hu2.
  split; [by apply Hmem|]. split; [done|]. split.
  { intros ev. by apply member_receives, Hmem. }
  split.
  - intros sender p e' user t [? Hsock] Hsender <- Ht Hf.
    unfold step. simpl. rewrite Hsock. simpl.
    unfold on_send_message. rewrite Hsender, Ht, Hf. simpl.
    eexists. split; [|split]; [| |apply member_receives]; [done|done|].
    apply Hmem. done.
  - intros p e'. unfold step. simpl. rewrite Hs2. simpl.
    unfold on_send_message, on_send_dm. by rewrite Hu2.
Qed.

Lemma foldl_evict_tables id t r l acc :
  messages (db (foldl (evict id t r) acc l).1) = messages (db acc.1) ∧
  dm_messages (db (foldl (evict id t r) acc l).1) = dm_messages (db acc.1).
Proof.
  apply (foldl_evict_ind
           (λ a, messages (db a.1) = messages (db acc.1) ∧
                 dm_messages (db a.1) = dm_messages (db acc.1))); [| |done].
  - intros s out entry _ _ [H1 H2] _. simpl in *.
    destruct (on_disconnect_db s entry.1 t r) as [->|[? ->]]; done.
  - done.
Qed.

Lemma foldl_evict_deliveries id t r l acc d :
  d ∈ (foldl (evict id t r) acc l).2 → d ∈ acc.2 ∨ d.2 = banned.
Proof.
  apply (foldl_evict_ind (λ a, d ∈ a.2 → d ∈ acc.2 ∨ d.2 = banned)); [| |by left].
  - intros s out entry _ _ IH _. simpl in *.
    intros [?|(? & -> & _)%list_elem_of_fmap]%elem_of_app; [eauto|by right].
  - intros s out entry _ IH _. simpl in *.
    intros [?|(? & -> & _)%list_elem_of_fmap]%elem_of_app; [eauto|by right].
Qed.

Ltac no_such_delivery :=
  match goal with
  | H : _ ∈ [] |- _ => by apply elem_of_nil in H
  | H : _ ∈ socket_emit _ _ |- _ =>
      by apply list_elem_of_singleton in H
  | H : _ ∈ [_] |- _ =>
      by apply list_elem_of_singleton in H
  | H : _ ∈ io_to_emit _ _ _ |- _ =>
      by apply list_elem_of_fmap in H as (? & ? & _)
  end.

Lemma chat_deliveries s i e r ev :
  (r, ev) ∈ deliveries (step s i e).2 →
  (∀ m, ev = new_message m →
     fail e 0%nat = None ∧
     ∃ sid p row,
       i = SendMessage sid p ∧
       messages (db (step s i e).1) = messages (db s) ++ [row] ∧
       m_id row = w_id m ∧ m_text row = w_text m ∧
       m_created_at row = w_created_at m) ∧
  (∀ m, ev = new_dm m →
     fail e 0%nat = None ∧
     ∃ sid p row,
       i = SendDm sid p ∧
       dm_messages (db (step s i e).1) = dm_messages (db s) ++ [row] ∧
       m_id row = w_id m ∧ m_text row = w_text m ∧
       m_created_at row = w_created_at m).
Proof.
  destruct i as [sid|sid token|sid roomId|sid chatId|sid p|sid p|sid|[h ep]];
    unfold step; simpl.
  - destruct (sockets s !! sid) eqn:E; simpl; intros; no_such_delivery.
  - destruct (sockets s !! sid) eqn:E; simpl; [|intros; no_such_delivery].
    unfold on_auth, on_auth_rows. repeat case_match; simpl; intros Hin; split; intros wm ->;
      no_such_delivery.
  - destruct (sockets s !! sid) eqn:E; simpl; intros; no_such_delivery.
  - destruct (sockets s !! sid) eqn:E; simpl; intros; no_such_delivery.
  - destruct (sockets s !! sid) eqn:E; simpl; [|intros; no_such_delivery].
    unfold on_send_message.
    repeat case_match; simplify_eq/=; intros Hin; split; intros wm ->;
      try no_such_delivery.
    apply list_elem_of_fmap in Hin as (? & [= -> ->] & _). simpl.
    split; [done|]. unfold insert_message in *. simplify_eq/=. eauto 10.
  - destruct (sockets s !! sid) eqn:E; simpl; [|intros; no_such_delivery].
    unfold on_send_dm.
    repeat case_match; simplify_eq/=; intros Hin; split; intros wm ->;
      try no_such_delivery.
    apply list_elem_of_fmap in Hin as (? & [= -> ->] & _). simpl.
    split; [done|]. unfold insert_dm_message in *. simplify_eq/=. eauto 10.
  - destruct (sockets s !! sid) eqn:E; simpl; intros; no_such_delivery.
  - unfold handle_request, authenticated_route, post_auth_google.
    repeat case_match; simplify_eq/=; intros Hin; split; intros wm ->;
      try no_such_delivery.
    all: exfalso;
      match goal with
      | H : foldl _ _ _ = (_, ?out) |- _ =>
          apply (f_equal snd) in H; simpl in H; subst out
      end;
      apply foldl_evict_deliveries in Hin as [?%elem_of_nil|?]; done.
Qed.

(** C5.  Whatever input is handled, a chat message is delivered to a
    channel member only in a step whose insert was accepted by the store and
    left the delivered message's row (same id, text and timestamp) as the
    last row of the channel's table; and when the store rejects the insert
    of a send that passed the handler's checks, the state is unchanged and
    the one event emitted is [message_error] to the sending socket. *)
Theorem broadcast_only_after_persistence s i e :
  (∀ r m, (r, new_message m) ∈ deliveries (step s i e).2 →
     fail e 0%nat = None ∧
     ∃ sid p row,
       i = SendMessage sid p ∧
       messages (db (step s i e).1) = messages (db s) ++ [row] ∧
       m_id row = w_id m ∧ m_text row = w_text m ∧
       m_created_at row = w_created_at m) ∧
  (∀ r m, (r, new_dm m) ∈ deliveries (step s i e).2 →
     fail e 0%nat = None ∧
     ∃ sid p row,
       i = SendDm sid p ∧
       dm_messages (db (step s i e).1) = dm_messages (db s) ++ [row] ∧
       m_id row = w_id m ∧ m_text row = w_text m ∧
       m_created_at row = w_created_at m) ∧
  (∀ sid p user t err,
     is_Some (sockets s !! sid) →
     connectedUsers s !! sid = Some user →
     accepted_text (text p) = Some t →
     fail e 0%nat = Some err →
     step s (SendMessage sid p) e =
       (s, mk_output [(sid, message_error err)] None) ∧
     (uid user ∈ split underscore (target p) →
      step s (SendDm sid p) e =
        (s, mk_output [(sid, message_error err)] None))).
Proof.
  split; [|split].
  - intros r m Hin. by eapply chat_deliveries.
  - intros r m Hin. by eapply chat_deliveries.
  - intros sid p user t err [rooms Hs] Hu Ht Hf. unfold step. simpl.
    rewrite Hs. simpl. unfold on_send_message, on_send_dm.
    rewrite Hu, Ht, Hf. split; [done|].
    intros Hin%includes_elem_of. by rewrite Hin.
Qed.

(** *** What a step writes to the message tables *)

Lemma step_messages s i e :
  messages (db (step s i e).1) = messages (db s) ∨
  (∃ msgId, messages (db (step s i e).1) =
              filter (λ m, m_id m ≠ msgId) (messages (db s))) ∨
  (∃ sid p raw row,
     i = SendMessage sid p ∧ text p = Some raw ∧
     messages (db (step s i e).1) = messages (db s) ++ [row] ∧
     m_text row = utf8_round_trip (trim raw) ∧ trim raw ≠ []
     ∧ (length raw ≤ 500)%nat).
Proof.
  destruct i as [sid|sid token|sid roomId|sid chatId|sid p|sid p|sid|[h ep]];
    unfold step; simpl.
  - destruct (sockets s !! sid); simpl; by left.
  - destruct (sockets s !! sid); simpl; [|by left].
    unfold on_auth, on_auth_rows. repeat case_match; simpl; by left.
  - destruct (sockets s !! sid); simpl; [|by left].
    unfold on_join_room, switch_to. repeat case_match; by left.
  - destruct (sockets s !! sid); simpl; [|by left].
    unfold on_join_dm, switch_to. repeat case_match; by left.
  - destruct (sockets s !! sid); simpl; [|by left].
    unfold on_send_message, insert_message.
    repeat case_match; simplify_eq/=; try by left.
    right; right.
    match goal with
    | H : accepted_text _ = Some _ |- _ =>
        apply accepted_text_spec in H as (raw & ? & -> & _ & ? & ?)
    end.
    eauto 10.
  - destruct (sockets s !! sid); simpl; [|by left].
    unfold on_send_dm, insert_dm_message.
    repeat case_match; simplify_eq/=; by left.
  - destruct (sockets s !! sid); simpl; [|by left].
    destruct (on_disconnect_db s sid (now e) (negb (rejected (fail e 0%nat))))
      as [->|[? ->]]; by left.
  - unfold handle_request, authenticated_route, post_auth_google, upsert_user,
      delete_message.
    repeat case_match; simplify_eq/=; try by left.
    + match goal with
      | H : foldl _ _ _ = (?s1, ?out) |- _ =>
          change s1 with (s1, out).1; rewrite <- H
      end.
      left. by destruct (foldl_evict_tables id (now e)
        (negb (rejected (fail e 1%nat))) (map_to_list (connectedUsers s))
        (set_db (update_is_banned id true) s, [])) as [-> _].
    + right; left; eauto.
    + right; left; eauto.
Qed.

Lemma step_dm_messages s i e :
  dm_messages (db (step s i e).1) = dm_messages (db s) ∨
  (∃ sid p raw row,
     i = SendDm sid p ∧ text p = Some raw ∧
     dm_messages (db (step s i e).1) = dm_messages (db s) ++ [row] ∧
     m_text row = utf8_round_trip (trim raw) ∧ trim raw ≠ []
     ∧ (length raw ≤ 500)%nat).
Proof.
  destruct i as [sid|sid token|sid roomId|sid chatId|sid p|sid p|sid|[h ep]];
    unfold step; simpl.
  - destruct (sockets s !! sid); simpl; by left.
  - destruct (sockets s !! sid); simpl; [|by left].
    unfold on_auth, on_auth_rows. repeat case_match; simpl; by left.
  - destruct (sockets s !! sid); simpl; [|by left].
    unfold on_join_room, switch_to. repeat case_match; by left.
  - destruct (sockets s !! sid); simpl; [|by left].
    unfold on_join_dm, switch_to. repeat case_match; by left.
  - destruct (sockets s !! sid); simpl; [|by left].
    unfold on_send_message, insert_message.
    repeat case_match; simplify_eq/=; by left.
  - destruct (sockets s !! sid); simpl; [|by left].
    unfold on_send_dm, insert_dm_message.
    repeat case_match; simplify_eq/=; try by left.
    right.
    match goal with
    | H : accepted_text _ = Some _ |- _ =>
        apply accepted_text_spec in H as (raw & ? & -> & _ & ? & ?)
    end.
    eauto 10.
  - destruct (sockets s !! sid); simpl; [|by left].
    destruct (on_disconnect_db s sid (now e) (negb (rejected (fail e 0%nat))))
      as [->|[? ->]]; by left.
  - unfold handle_request, authenticated_route, post_auth_google, upsert_user,
      delete_message.
    repeat case_match; simplify_eq/=; try by left.
    match goal with
    | H : foldl _ _ _ = (?s1, ?out) |- _ =>
        change s1 with (s1, out).1; rewrite <- H
    end.
    left. by destruct (foldl_evict_tables id (now e)
      (negb (rejected (fail e 1%nat))) (map_to_list (connectedUsers s))
      (set_db (update_is_banned id true) s, [])) as [_ ->].
Qed.

(** C10 (amended).  Whatever input is handled, a row that the step adds to
    [messages] or to [dm_messages] comes from a send whose text, as the
    client gave it, has at most 500 characters.  The stored text is the
    trimmed form of that input as it comes back from the store: unit for
    unit the trimmed form, but with U+FFFD in the place of every surrogate
    that has no partner, so the trimmed form itself whenever that is well
    formed; it is not empty and has the length of the trimmed form, at most
    500.  A send whose untrimmed text has more than 500 characters is
    dropped without any effect, however short its trimmed form is. *)
Theorem persisted_text_trimmed_and_bounded s i e :
  (∀ row,
     row ∈ messages (db (step s i e).1) ++ dm_messages (db (step s i e).1) →
     row ∉ messages (db s) ++ dm_messages (db s) →
     ∃ sid p raw,
       (i = SendMessage sid p ∨ i = SendDm sid p) ∧ text p = Some raw ∧
       m_text row = utf8_round_trip (trim raw) ∧
       (isWellFormed (trim raw) = true → m_text row = trim raw) ∧
       m_text row ≠ [] ∧
       length (m_text row) = length (trim raw) ∧
       (length (m_text row) ≤ 500)%nat ∧ (length raw ≤ 500)%nat) ∧
  (∀ sid p raw,
     i = SendMessage sid p ∨ i = SendDm sid p →
     text p = Some raw → (500 < length raw)%nat →
     step s i e = (s, mk_output [] None)).
Proof.
  split.
  - intros row Hnew Hold.
    rewrite elem_of_app in Hnew. rewrite elem_of_app in Hold.
    assert (∀ (raw : jsstring) (r : message_row),
              m_text r = utf8_round_trip (trim raw) → trim raw ≠ [] →
              (length raw ≤ 500)%nat →
              m_text r = utf8_round_trip (trim raw) ∧
              (isWellFormed (trim raw) = true → m_text r = trim raw) ∧
              m_text r ≠ [] ∧
              length (m_text r) = length (trim raw) ∧
              (length (m_text r) ≤ 500)%nat ∧ (length raw ≤ 500)%nat)
      as Htext.
    { intros raw r Hr Hne Hlen. rewrite Hr.
      split; [done|]. split; [by intros ->%utf8_round_trip_isWellFormed|].
      split; [by rewrite utf8_round_trip_nil|].
      rewrite length_utf8_round_trip. split; [done|]. split; [|done].
      etrans; [apply length_trim|done]. }
    destruct Hnew as [Hnew|Hnew].
    + destruct (step_messages s i e)
        as [Heq|[[msgId Heq]|(sid & p & raw & row' & -> & ? & Heq & ? & ? & ?)]];
        rewrite Heq in Hnew.
      * tauto.
      * apply list_elem_of_filter in Hnew. tauto.
      * apply elem_of_app in Hnew as [?|Hrow%list_elem_of_singleton]; [tauto|].
        subst row. exists sid, p, raw.
        split; [by left|]. split; [done|]. by apply Htext.
    + destruct (step_dm_messages s i e)
        as [Heq|(sid & p & raw & row' & -> & ? & Heq & ? & ? & ?)];
        rewrite Heq in Hnew.
      * tauto.
      * apply elem_of_app in Hnew as [?|Hrow%list_elem_of_singleton]; [tauto|].
        subst row. exists sid, p, raw.
        split; [by right|]. split; [done|]. by apply Htext.
  - intros sid p raw Hi Hraw Hlong.
    assert (accepted_text (text p) = None) as Hrej.
    { apply accepted_text_None. rewrite Hraw. by right. }
    destruct Hi as [-> | ->]; unfold step; simpl;
      destruct (sockets s !! sid); simpl; try done;
      unfold on_send_message, on_send_dm; rewrite Hrej;
      by destruct (connectedUsers s !! sid).
Qed.

(** *** Eviction and the ban flag *)



Lemma foldl_evict_registry id t r l acc sid u :
  connectedUsers (foldl (evict id t r) acc l).1 !! sid = Some u →
  connectedUsers acc.1 !! sid = Some u.
Proof.
  apply (foldl_evict_ind
           (λ a, connectedUsers a.1 !! sid = Some u →
                 connectedUsers acc.1 !! sid = Some u)); [| |done].
  - intros s out entry _ _ IH _. simpl in *.
    rewrite on_disconnect_connectedUsers.
    intros [_ ?]%lookup_delete_Some. eauto.
  - done.
Qed.















(** *** Sessions of a banned identity *)

Lemma no_live_session_tables id s d :
  no_live_session id s →
  no_live_session id (mk_state d (connectedUsers s) (sockets s)).
Proof. done. Qed.











Lemma elem_of_list_insert_inv {A} (l : list A) n x y :
  y ∈ <[n := x]> l → y = x ∨ y ∈ l.
Proof.
  intros [k Hk]%list_elem_of_lookup.
  apply list_lookup_insert_Some in Hk as [(_ & -> & _)|[_ Hk]]; [by left|].
  right. by eapply list_elem_of_lookup_2.
Qed.

Lemma elem_of_list_delete {A} (l : list A) n x : x ∈ delete n l → x ∈ l.
Proof. intros H. eapply elem_of_sublist; [done|apply sublist_delete]. Qed.






Lemma authMiddleware_inl t h resp :
  authMiddleware t h = inl resp → ∃ msg, resp = mk_response 401 (json_error msg).
Proof.
  unfold authMiddleware. repeat case_match; intros [= <-]; by eexists.
Qed.



(** *** Failed requests *)


(** * Further properties of the server

    The helpers of the handlers, the routes and events the properties above
    do not touch, and what a step may do to the tables. *)

(** ** Strings *)

Lemma trimStart_starts_clean s : starts_clean (trimStart s).
Proof.
  induction s as [|c s IH]; simpl; [done|].
  destruct (is_whitespace c) eqn:E; simpl; done.
Qed.

Lemma trimStart_clean s : starts_clean s → trimStart s = s.
Proof. destruct s as [|c s]; simpl; [done|]. by intros ->. Qed.

Lemma trimStart_suffix s : trimStart s `suffix_of` s.
Proof.
  induction s as [|c s IH]; simpl; [done|].
  destruct (is_whitespace c); [by apply suffix_cons_r|done].
Qed.

Lemma starts_clean_prefix p s : p `prefix_of` s → starts_clean s → starts_clean p.
Proof.
  intros [k ->]. destruct p; simpl; done.
Qed.

Lemma trimStart_all_whitespace s :
  trimStart s = [] ↔ Forall (λ c, is_whitespace c = true) s.
Proof.
  induction s as [|c s IH]; simpl; [by split; [constructor|]|].
  destruct (is_whitespace c) eqn:E.
  - rewrite IH. split; [by constructor|]. by inversion 1.
  - split; [done|]. inversion 1; congruence.
Qed.

Lemma trim_unfold s : trim s = reverse (trimStart (reverse (trimStart s))).
Proof. done. Qed.

Lemma trim_starts_clean s : starts_clean (trim s).
Proof.
  rewrite trim_unfold.
  eapply starts_clean_prefix; [|apply (trimStart_starts_clean s)].
  rewrite <- (reverse_involutive (trimStart s)) at 2.
  apply suffix_prefix_reverse, trimStart_suffix.
Qed.

Lemma trim_ends_clean s : starts_clean (reverse (trim s)).
Proof.
  rewrite trim_unfold, reverse_involutive. apply trimStart_starts_clean.
Qed.

Lemma trim_idempotent_and_clean s :
  trim (trim s) = trim s ∧
  starts_clean (trim s) ∧ starts_clean (reverse (trim s)) ∧
  (trim s = [] ↔ Forall (λ c, is_whitespace c = true) s).
Proof.
  split; [|split; [apply trim_starts_clean|split; [apply trim_ends_clean|]]].
  - rewrite (trim_unfold (trim s)).
    rewrite (trimStart_clean (trim s)) by apply trim_starts_clean.
    rewrite (trimStart_clean (reverse (trim s))) by apply trim_ends_clean.
    apply reverse_involutive.
  - rewrite trim_unfold. split.
    + intros H. apply (f_equal reverse) in H. rewrite reverse_involutive in H.
      change (reverse []) with (@nil N) in H.
      apply trimStart_all_whitespace in H. rewrite Forall_reverse in H.
      pose proof (trimStart_starts_clean s) as Hclean.
      apply trimStart_all_whitespace.
      destruct (trimStart s) as [|c t]; [done|].
      apply Forall_cons in H as [Hc _]. simpl in *. congruence.
    + intros H. apply trimStart_all_whitespace in H. by rewrite H.
Qed.

Lemma surrogate_not_whitespace c :
  is_high_surrogate c || is_low_surrogate c = true → is_whitespace c = false.
Proof.
  unfold is_high_surrogate, is_low_surrogate, is_whitespace.
  intros H. apply orb_true_iff in H.
  repeat (apply orb_false_intro); try apply andb_false_iff;
    rewrite ?N.eqb_neq, ?N.leb_gt; 
    destruct H as [[H1 H2]%andb_true_iff|[H1 H2]%andb_true_iff];
    apply N.leb_le in H1, H2; try lia.
  all: try (right; lia).
Qed.

(** Unit by unit, the round trip keeps what is white space and what is
    not. *)
Lemma utf8_round_trip_units s :
  Forall2 (λ c c', is_whitespace c' = is_whitespace c) s (utf8_round_trip s).
Proof.
  assert (∀ c, is_high_surrogate c || is_low_surrogate c = true →
               is_whitespace 65533%N = is_whitespace c) as Hr.
  { intros c H. by rewrite (surrogate_not_whitespace c H). }
  induction s as [|c|c c' s IH1 IH2] using units_ind; [constructor| |].
  - simpl. destruct (is_high_surrogate c) eqn:E1;
      [|destruct (is_low_surrogate c) eqn:E2]; repeat constructor.
    + apply Hr. by rewrite E1.
    + apply Hr. by rewrite E2, orb_true_r.
  - change (utf8_round_trip (c :: c' :: s))
      with (if is_high_surrogate c then
              if is_low_surrogate c' then c :: c' :: utf8_round_trip s
              else 65533%N :: utf8_round_trip (c' :: s)
            else if is_low_surrogate c then 65533%N :: utf8_round_trip (c' :: s)
            else c :: utf8_round_trip (c' :: s)).
    destruct (is_high_surrogate c) eqn:E1;
      [destruct (is_low_surrogate c') eqn:E2|destruct (is_low_surrogate c) eqn:E2].
    + by repeat constructor.
    + constructor; [|done]. apply Hr. by rewrite E1.
    + constructor; [|done]. apply Hr. by rewrite E2, orb_true_r.
    + by constructor.
Qed.

Lemma starts_clean_units s s' :
  Forall2 (λ c c', is_whitespace c' = is_whitespace c) s s' →
  starts_clean s → starts_clean s'.
Proof. destruct 1 as [|c c' s s' Hc _]; simpl; [done|]. by rewrite Hc. Qed.

Lemma utf8_round_trip_clean s :
  starts_clean s → starts_clean (reverse s) →
  starts_clean (utf8_round_trip s) ∧ starts_clean (reverse (utf8_round_trip s)).
Proof.
  intros H1 H2. pose proof (utf8_round_trip_units s) as Hu. split.
  - by eapply starts_clean_units.
  - eapply starts_clean_units; [|done]. by apply Forall2_reverse.
Qed.

Lemma trim_clean s : starts_clean s → starts_clean (reverse s) → trim s = s.
Proof.
  intros H1 H2. rewrite trim_unfold, (trimStart_clean s H1).
  by rewrite (trimStart_clean _ H2), reverse_involutive.
Qed.

Lemma split_nonempty sep s : split sep s ≠ [].
Proof.
  destruct s as [|c s]; simpl; [discriminate|].
  destruct (decide (c = sep)); [discriminate|].
  destruct (split sep s); discriminate.
Qed.

Lemma split_no_sep sep a : sep ∉ a → split sep a = [a].
Proof.
  induction a as [|c a IH]; simpl; [done|].
  intros [Hc Ha]%not_elem_of_cons. rewrite decide_False by done.
  by rewrite IH.
Qed.

Lemma split_app_sep sep a b :
  sep ∉ a → split sep (a ++ sep :: b) = a :: split sep b.
Proof.
  induction a as [|c a IH]; simpl.
  - intros _. by rewrite decide_True.
  - intros [Hc Ha]%not_elem_of_cons. rewrite decide_False by done.
    by rewrite IH.
Qed.

Lemma startsWith_spec s p : startsWith s p = true ↔ ∃ rest, s = p ++ rest.
Proof.
  revert s. induction p as [|a p IH]; intros s; simpl.
  - split; [by exists s|by destruct s].
  - destruct s as [|b s]; [split; [done|by intros [? ?]]|].
    simpl. rewrite andb_true_iff, bool_decide_eq_true, IH. split.
    + intros [-> [rest ->]]. eauto.
    + intros [rest [= -> ->]]. eauto.
Qed.

(** ** The history query *)

Lemma insert_by_created_at_Permutation r l : insert_by_created_at r l ≡ₚ r :: l.
Proof.
  induction l as [|x l IH]; simpl; [done|].
  destruct (h_created_at r <=? h_created_at x); [done|].
  rewrite IH. apply Permutation_swap.
Qed.

Lemma order_by_created_at_asc_Permutation l : order_by_created_at_asc l ≡ₚ l.
Proof.
  induction l as [|x l IH]; simpl; [done|].
  by rewrite insert_by_created_at_Permutation, IH.
Qed.

Lemma insert_by_created_at_sorted r l :
  StronglySorted (λ a b, h_created_at a ≤ h_created_at b) l →
  StronglySorted (λ a b, h_created_at a ≤ h_created_at b)
                 (insert_by_created_at r l).
Proof.
  intros Hl. induction l as [|x l IH]; [repeat constructor|].
  apply StronglySorted_cons in Hl as [Hx Hl].
  change (insert_by_created_at r (x :: l))
    with (if h_created_at r <=? h_created_at x then r :: x :: l
          else x :: insert_by_created_at r l).
  destruct (h_created_at r <=? h_created_at x) eqn:E.
  - apply Z.leb_le in E. constructor; [by constructor|].
    constructor; [done|]. eapply Forall_impl; [done|]. simpl. lia.
  - apply Z.leb_gt in E. constructor; [by apply IH|].
    apply Forall_forall. intros y Hy.
    rewrite insert_by_created_at_Permutation in Hy.
    apply elem_of_cons in Hy as [->|Hy]; [lia|].
    by eapply Forall_forall in Hx.
Qed.

Lemma order_by_created_at_asc_sorted l :
  StronglySorted (λ a b, h_created_at a ≤ h_created_at b)
                 (order_by_created_at_asc l).
Proof.
  induction l as [|x l IH]; simpl; [constructor|].
  by apply insert_by_created_at_sorted.
Qed.

Lemma length_omap_le {A B} (f : A → option B) l :
  (length (omap f l) ≤ length l)%nat.
Proof.
  induction l as [|x l IH]; [done|].
  change (omap f (x :: l))
    with (match f x with Some y => y :: omap f l | None => omap f l end).
  destruct (f x); simpl; lia.
Qed.

Lemma select_history_origin us table channel h :
  h ∈ select_history us table channel →
  ∃ m, m ∈ table ∧ m_channel m = channel ∧ join_users us m = Some h.
Proof.
  unfold select_history. intros Hh.
  eapply elem_of_sublist in Hh; [|apply sublist_take].
  rewrite order_by_created_at_asc_Permutation in Hh.
  apply list_elem_of_omap in Hh as (m & [? ?]%list_elem_of_filter & ?).
  eauto.
Qed.

(** X7.  The rows a history query returns are at most 80, in ascending
    order of creation time, and each is a stored message of the requested
    channel joined with its author's stored name, photo and premium flag;
    when the channel holds at most 80 messages, every message of the
    channel whose author is stored is among them. *)
Theorem history_rows_of_channel us table channel :
  (length (select_history us table channel) ≤ 80)%nat ∧
  StronglySorted (λ a b, h_created_at a ≤ h_created_at b)
                 (select_history us table channel) ∧
  (∀ h, h ∈ select_history us table channel →
        ∃ m, m ∈ table ∧ m_channel m = channel ∧ join_users us m = Some h) ∧
  ((length (filter (λ m, m_channel m = channel) table) ≤ 80)%nat →
   ∀ m h, m ∈ table → m_channel m = channel → join_users us m = Some h →
          h ∈ select_history us table channel).
Proof.
  split; [|split; [|split]]; [| |apply select_history_origin|].
  all: unfold select_history.
  all: set (joined := omap (join_users us)
                           (filter (λ m, m_channel m = channel) table)).
  - rewrite length_take. lia.
  - pose proof (order_by_created_at_asc_sorted joined) as H.
    rewrite <- (take_drop 80 (order_by_created_at_asc joined)) in H.
    by apply StronglySorted_app_1_l in H.
  - intros Hlen m h Hm Hc Hj.
    rewrite take_ge.
    + rewrite order_by_created_at_asc_Permutation.
      apply list_elem_of_omap. exists m. split; [|done].
      by apply list_elem_of_filter.
    + rewrite order_by_created_at_asc_Permutation.
      etrans; [apply length_omap_le|done].
Qed.

(** ** The middlewares *)

Lemma authMiddleware_spec t h me :
  authMiddleware t h = inr me ↔
  ∃ rest tok, h = Some (js "Bearer " ++ rest) ∧
              head (split space rest) = Some tok ∧ jwt_verify t tok = Some me.
Proof.
  assert (∀ rest, split space (js "Bearer " ++ rest) !! 1%nat
                  = head (split space rest)) as Hsplit.
  { intros rest. change (js "Bearer " ++ rest) with (js "Bearer" ++ space :: rest).
    rewrite split_app_sep; [by destruct (split space rest)|].
    compute_done. }
  unfold authMiddleware. destruct h as [[|c h]|].
  2: destruct (startsWith (c :: h) (js "Bearer ")) eqn:E.
  - split; [done|]. by intros (rest & tok & [= H] & _).
  - apply startsWith_spec in E as [rest E]. rewrite E, Hsplit.
    destruct (head (split space rest)) as [tok|] eqn:Eh; simpl.
    + destruct (jwt_verify t tok) as [id|] eqn:Ej.
      * split.
        -- intros [= <-]. exists rest, tok. done.
        -- intros (rest' & tok' & [= <-] & Hh & Hj). congruence.
      * split; [done|].
        intros (rest' & tok' & [= <-] & Hh & Hj). congruence.
    + split; [done|].
      intros (rest' & tok' & [= <-] & Hh & Hj). congruence.
  - split; [done|]. intros (rest & tok & Hh & _).
    assert (c :: h = js "Bearer " ++ rest) as Hr by congruence.
    assert (startsWith (c :: h) (js "Bearer ") = true) as Hs
      by (apply startsWith_spec; by exists rest).
    congruence.
  - split; [done|]. by intros (rest & tok & [= H] & _).
Qed.

(** X1.  The routes [GET /] and [GET /api/debug-env] and the login route
    are registered without [authMiddleware]; the first two answer 200 to any
    caller, whatever its [Authorization] header, and change nothing.  Every
    other route is served only to a caller whose header is "Bearer ", then a
    token that [jwt.verify] accepts, the token ending at the next space or
    at the end of the header; [req.uid] is the identity of that token.
    Every other request to such a route is answered 401 and has no
    effect. *)
Theorem bearer_token_required s r e :
  (route r = GET_root ∨ route r = GET_debug_env →
   status (handle_request s r e).2 = 200 ∧ (handle_request s r e).1 = (s, [])) ∧
  (public_route (route r) = false →
   (∀ rest tok me,
      authorization r = Some (js "Bearer " ++ rest) →
      head (split space rest) = Some tok →
      jwt_verify (now e) tok = Some me →
      handle_request s r e = authenticated_route s me (route r) e) ∧
   ((¬ ∃ rest tok me,
         authorization r = Some (js "Bearer " ++ rest) ∧
         head (split space rest) = Some tok ∧
         jwt_verify (now e) tok = Some me) →
    ∃ msg, handle_request s r e = (s, [], mk_response 401 (json_error msg)))).
Proof.
  split.
  { unfold handle_request. by intros [-> | ->]. }
  intros Hroute. split.
  - intros rest tok me Hh Ht Hj.
    assert (authMiddleware (now e) (authorization r) = inr me) as Ha.
    { apply authMiddleware_spec. eauto. }
    unfold handle_request. rewrite Ha. by destruct (route r).
  - intros Hno. unfold handle_request.
    destruct (authMiddleware (now e) (authorization r)) as [resp|me] eqn:Ha.
    + apply authMiddleware_inl in Ha as [msg ->].
      exists msg. by destruct (route r).
    + apply authMiddleware_spec in Ha as (rest & tok & ? & ? & ?).
      destruct Hno. eauto 10.
Qed.

(** X2.  The ban, unban and delete-message routes answer 200 only to the
    configured administrator: the caller's token identity is [ADMIN_UID] and
    [ADMIN_UID] is not empty.  Any other caller is answered with an error
    and the state stays as it was. *)
Theorem admin_routes_only_for_admin s r e :
  admin_route (route r) = true →
  (status (handle_request s r e).2 = 200 →
   ADMIN_UID ≠ [] ∧ authMiddleware (now e) (authorization r) = inr ADMIN_UID) ∧
  (authMiddleware (now e) (authorization r) ≠ inr ADMIN_UID ∨ ADMIN_UID = [] →
   status (handle_request s r e).2 ≠ 200 ∧ (handle_request s r e).1 = (s, [])).
Proof.
  intros Hr. destruct r as [h ep]. simpl in *.
  unfold handle_request. simpl.
  destruct (authMiddleware (now e) h) as [resp|me] eqn:Ha.
  { apply authMiddleware_inl in Ha as [msg ->].
    destruct ep; try done; simpl; split; try done. }
  unfold authenticated_route, adminMiddleware.
  destruct ep; try done.
  all: destruct (bool_decide (ADMIN_UID = [])) eqn:E1; simpl;
    [apply bool_decide_eq_true in E1|apply bool_decide_eq_false in E1].
  all: destruct (bool_decide (me = ADMIN_UID)) eqn:E2; simpl;
    [apply bool_decide_eq_true in E2|apply bool_decide_eq_false in E2].
  all: try (split; [done|]; by intros _).
  all: subst me; split; [done|]; intros [?|?]; done.
Qed.

(** ** What a step may write *)

Lemma adminMiddleware_true me :
  negb (adminMiddleware me) = false → me = ADMIN_UID ∧ ADMIN_UID ≠ [].
Proof.
  unfold adminMiddleware. rewrite negb_involutive, orb_false_iff.
  intros [H1%bool_decide_eq_false H2%negb_false_iff%bool_decide_eq_true]. done.
Qed.

Lemma adminMiddleware_admin : ADMIN_UID ≠ [] → adminMiddleware ADMIN_UID = true.
Proof.
  intros H. unfold adminMiddleware.
  rewrite (bool_decide_eq_false_2 (ADMIN_UID = [])) by done.
  by rewrite (bool_decide_eq_true_2 (ADMIN_UID = ADMIN_UID)).
Qed.

Lemma foldl_evict_write s0 i e0 id r l acc d0 :
  rtc (write s0 i e0) d0 (db acc.1) →
  rtc (write s0 i e0) d0 (db (foldl (evict id (now e0) r) acc l).1).
Proof.
  apply (foldl_evict_ind (λ a, rtc (write s0 i e0) d0 (db a.1))).
  - intros s out entry _ _ H _. simpl in *.
    destruct (on_disconnect_db s entry.1 (now e0) r) as [->|[? ->]]; [done|].
    eapply rtc_r; [done|]. constructor.
  - done.
Qed.

Lemma step_writes s i e : rtc (write s i e) (db s) (db (step s i e).1).
Proof.
  destruct i as [sid|sid token|sid roomId|sid chatId|sid p|sid p|sid|[h ep]];
    unfold step; simpl.
  - destruct (sockets s !! sid); simpl; done.
  - destruct (sockets s !! sid); simpl; [|done].
    unfold on_auth.
    destruct (jwt_verify (now e) token) as [id|]; [|done].
    destruct (fail e 0%nat); [done|]. simpl.
    destruct (on_auth_rows_cases s sid id (users (db s) !! id) (now e)
                (negb (rejected (fail e 1%nat))))
      as [->|(row & d & _ & _ & [->| ->] & ->)]; simpl; [done|done|].
    apply rtc_once. constructor.
  - destruct (sockets s !! sid); simpl; [|done].
    unfold on_join_room, switch_to. repeat case_match; done.
  - destruct (sockets s !! sid); simpl; [|done].
    unfold on_join_dm, switch_to. repeat case_match; done.
  - destruct (sockets s !! sid); simpl; [|done].
    unfold on_send_message.
    destruct (connectedUsers s !! sid) as [user|] eqn:Eu; [|done].
    destruct (accepted_text (text p)) as [t|] eqn:Et; [|done].
    destruct (fail e 0%nat); [done|]. simpl.
    apply rtc_once. by eapply write_message.
  - destruct (sockets s !! sid); simpl; [|done].
    unfold on_send_dm.
    destruct (connectedUsers s !! sid) as [user|] eqn:Eu; [|done].
    destruct (accepted_text (text p)) as [t|] eqn:Et; [|done].
    destruct (includes _ _) eqn:Ei; simpl; [|done].
    destruct (fail e 0%nat); [done|]. simpl.
    apply includes_elem_of in Ei.
    apply rtc_once. by eapply write_dm.
  - destruct (sockets s !! sid); simpl; [|done].
    destruct (on_disconnect_db s sid (now e) (negb (rejected (fail e 0%nat))))
      as [->|[? ->]]; [done|]. apply rtc_once. constructor.
  - unfold handle_request. destruct ep; simpl.
    1: { unfold post_auth_google.
         destruct idToken as [[|c tok]|]; try done.
         destruct (verifyGoogleToken _) as [|g] eqn:Eg; try done.
         destruct (fail e 0%nat); try done.
         destruct (upsert_user _ _ _ _ _ _) as [d user] eqn:E.
         replace d with (upsert_user (db s) (g_sub g)
                           (or_else (g_name g) (js "Anonymous Therian"))
                           (or_else (g_picture g) []) (or_else (g_email g) [])
                           (now e)).1 by (by rewrite E).
         destruct (u_is_banned user); simpl; apply rtc_once;
           by eapply write_upsert. }
    all: destruct (authMiddleware (now e) h) as [resp|me] eqn:Ea; [done|].
    all: unfold authenticated_route.
    all: repeat case_match; simplify_eq/=; try done.
    all: try match goal with
             | H : negb (adminMiddleware _) = false |- _ =>
                 apply adminMiddleware_true in H as [-> ?]
             end.
    + apply rtc_once. eapply write_name; [done|done|done|].
      match goal with H : (_ <? _) = false |- _ => apply Z.ltb_ge in H end.
      simpl. lia.
    + apply rtc_once. by eapply write_photo.
    + apply rtc_once. eapply write_friends; [done|done|].
      match goal with
      | H : bool_decide _ = false |- _ => by apply bool_decide_eq_false in H
      end.
    + match goal with
      | H : foldl _ _ _ = (?s1, ?out) |- _ =>
          change s1 with (s1, out).1; rewrite <- H
      end.
      apply foldl_evict_write. simpl. apply rtc_once.
      by apply (write_flag _ _ _ _ h id true).
    + apply rtc_once. by apply (write_flag _ _ _ _ h id false).
    + apply rtc_once. by eapply write_delete.
    + apply rtc_once. by eapply write_delete.
Qed.

Lemma db_invariant (P : database → Prop) :
  (∀ s i e d d', P d → write s i e d d' → P d') →
  ∀ s i e, P (db s) → P (db (step s i e).1).
Proof.
  intros Hstep s i e Hs. induction (step_writes s i e); eauto.
Qed.

Lemma run_db_invariant (P : database → Prop) :
  (∀ s i e d d', P d → write s i e d d' → P d') →
  ∀ trace s, P (db s) → P (db (run s trace)).
Proof.
  intros Hstep trace. induction trace as [|[i e] trace IH]; intros s Hs; [done|].
  simpl. destruct (exits _); [by apply db_invariant|].
  by apply IH, db_invariant.
Qed.

(** *** Friendships *)

Lemma friends_ok_step s i e d d' :
  friends_ok d → write s i e d d' → friends_ok d' ∧ friends d ⊆ friends d'.
Proof.
  intros [Hsym Hirr] Hstep.
  destruct Hstep; unfold friends_ok; simpl; try (split; [by split|done]).
  split; [split|]; [| |set_solver].
  - intros x y. rewrite !elem_of_union, !elem_of_singleton.
    intros [[[= -> ->]|[= -> ->]]|?]; eauto.
  - intros x. rewrite !elem_of_union, !elem_of_singleton.
    intros [[[= -> ->]|[= -> ->]]|?]; [done|done|]. by eapply Hirr.
Qed.

(** X3.  Started on a friends table that is symmetric and has nobody as
    their own friend, the server keeps it so whatever inputs it handles, and
    no input ever removes a friendship. *)
Theorem friendships_stay_symmetric s trace :
  friends_ok (db s) →
  friends_ok (db (run s trace)) ∧ friends (db s) ⊆ friends (db (run s trace)).
Proof.
  intros Hs.
  apply (run_db_invariant (λ d, friends_ok d ∧ friends (db s) ⊆ friends d));
    [|done].
  intros s0 i e d d' [Hd Hsub] Hstep.
  destruct (friends_ok_step s0 i e d d' Hd Hstep). split; [done|]. set_solver.
Qed.

(** *** Message ids *)

Lemma StronglySorted_filter {A} (R : relation A) (P : A → Prop)
    `{!∀ x, Decision (P x)} l :
  StronglySorted R l → StronglySorted R (filter P l).
Proof.
  induction 1 as [|x l Hl IH Hx]; [constructor|].
  rewrite filter_cons. destruct (decide (P x)); [|done].
  constructor; [done|].
  apply Forall_forall. intros y [_ Hy]%list_elem_of_filter.
  by eapply Forall_forall in Hx.
Qed.

Lemma ids_increasing_snoc table next room author t time :
  ids_increasing table next →
  ids_increasing (table ++ [mk_message next room author t time]) (next + 1).
Proof.
  intros [Hsort Hbelow]. split.
  - apply StronglySorted_app_2; [|done|repeat constructor].
    intros x1 x2 H1 ->%list_elem_of_singleton. simpl.
    by eapply Forall_forall in Hbelow.
  - apply Forall_app. split.
    + eapply Forall_impl; [done|]. simpl. lia.
    + repeat constructor. simpl. lia.
Qed.

Lemma sequences_ahead_step s i e d d' :
  sequences_ahead d → write s i e d d' → sequences_ahead d'.
Proof.
  intros [Hm Hd] Hstep. destruct Hstep; simpl; try done.
  - split; [|done]. by apply ids_increasing_snoc.
  - split; [done|]. by apply ids_increasing_snoc.
  - split; [|done]. destruct Hm as [Hsort Hbelow]. split.
    + by apply StronglySorted_filter.
    + apply Forall_forall. intros x [_ Hx]%list_elem_of_filter.
      by eapply Forall_forall in Hbelow.
Qed.

Lemma ids_increasing_NoDup table next :
  ids_increasing table next → NoDup (m_id <$> table).
Proof.
  intros [Hsort _]. induction Hsort as [|x l Hl IH Hx]; [constructor|].
  simpl. constructor; [|done].
  intros (y & Hy & Hin)%list_elem_of_fmap.
  eapply Forall_forall in Hx; [|done]. lia.
Qed.

(** X4.  Started on tables whose ids increase along the table and lie below
    the next value of the sequence, every step keeps them so: no two rows of
    a table ever share an id, and the message a send broadcasts has an id
    greater than that of every message stored before. *)
Theorem message_ids_fresh s i e :
  sequences_ahead (db s) →
  sequences_ahead (db (step s i e).1) ∧
  NoDup (m_id <$> messages (db (step s i e).1)) ∧
  NoDup (m_id <$> dm_messages (db (step s i e).1)) ∧
  (∀ r m, (r, new_message m) ∈ deliveries (step s i e).2 →
     Forall (λ row, m_id row < w_id m) (messages (db s))) ∧
  (∀ r m, (r, new_dm m) ∈ deliveries (step s i e).2 →
     Forall (λ row, m_id row < w_id m) (dm_messages (db s))).
Proof.
  intros Hs.
  assert (sequences_ahead (db (step s i e).1)) as [Hm Hd].
  { revert Hs. apply db_invariant. apply sequences_ahead_step. }
  split; [done|].
  split; [by eapply ids_increasing_NoDup|].
  split; [by eapply ids_increasing_NoDup|].
  split.
  - intros r m Hin.
    destruct (chat_deliveries s i e r (new_message m) Hin) as [H _].
    destruct (H m eq_refl) as (_ & sid & p & row & _ & Heq & Hid & _).
    destruct Hm as [Hsort _]. rewrite Heq in Hsort.
    apply Forall_forall. intros x Hx. rewrite <- Hid.
    eapply (StronglySorted_app_1_elem_of _ _ _ _ _ Hsort); [done|].
    by apply list_elem_of_singleton.
  - intros r m Hin.
    destruct (chat_deliveries s i e r (new_dm m) Hin) as [_ H].
    destruct (H m eq_refl) as (_ & sid & p & row & _ & Heq & Hid & _).
    destruct Hd as [Hsort _]. rewrite Heq in Hsort.
    apply Forall_forall. intros x Hx. rewrite <- Hid.
    eapply (StronglySorted_app_1_elem_of _ _ _ _ _ Hsort); [done|].
    by apply list_elem_of_singleton.
Qed.

(** *** Stored identities *)


Lemma lookup_alter_users d f k id row :
  users d !! id = Some row →
  alter f k (users d) !! id = Some (if decide (k = id) then f row else row).
Proof.
  intros H. rewrite lookup_alter. case_decide; subst; rewrite H; done.
Qed.

Lemma write_row s i e d d' id row1 :
  write s i e d d' → users d !! id = Some row1 →
  ∃ row2, users d' !! id = Some row2 ∧
    u_premium row2 = u_premium row1 ∧ u_email row2 = u_email row1 ∧
    (u_name row2 = u_name row1 ∨
     ∃ h, i = Http (mk_request h (PUT_users_me_name (Some (u_name row2)))) ∧
          authMiddleware (now e) h = inr id) ∧
    (u_is_banned row2 = u_is_banned row1 ∨
     ∃ h, i = Http (mk_request h (if u_is_banned row2 then POST_admin_ban id
                                  else POST_admin_unban id)) ∧
          authMiddleware (now e) h = inr ADMIN_UID ∧ ADMIN_UID ≠ []) ∧
    (u_photo row2 = u_photo row1 ∨
     (∃ h p, i = Http (mk_request h (PUT_users_me_photo (Some p))) ∧
             authMiddleware (now e) h = inr id ∧ u_photo row2 = Some p) ∨
     (∃ h tok g, i = Http (mk_request h (POST_auth_google (Some tok))) ∧
                 verifyGoogleToken tok = inr g ∧ g_sub g = id)).
Proof.
  intros Hw Hrow. destruct Hw; simpl.
  - unfold upsert_user. simpl. rewrite lookup_insert.
    case_decide as Hid; [|exists row1; repeat split; eauto].
    subst id. rewrite Hrow. eexists. split; [done|]. simpl.
    repeat split; eauto 10.
  - erewrite lookup_alter_users by done. eexists. split; [done|].
    case_decide; simpl; repeat split; eauto.
  - erewrite lookup_alter_users by done. eexists. split; [done|].
    case_decide; subst; simpl; repeat split; eauto.
  - erewrite lookup_alter_users by done. eexists. split; [done|].
    case_decide; subst; simpl; repeat split; eauto 10.
  - erewrite lookup_alter_users by done. eexists. split; [done|].
    case_decide; subst; simpl; repeat split; eauto.
  - exists row1. repeat split; eauto.
  - exists row1. repeat split; eauto.
  - exists row1. repeat split; eauto.
  - exists row1. repeat split; eauto.
Qed.


(** *** Stored messages *)

Lemma writes_ind s i e (P : database → Prop) :
  P (db s) → (∀ d d', P d → write s i e d d' → P d') →
  P (db (step s i e).1).
Proof.
  intros H0 Hstep.
  apply (rtc_ind_r (R := write s i e) P (db s)); [done| |apply step_writes].
  eauto.
Qed.



(** ** Direct channels *)

Lemma canonical_channel_parts a b x :
  underscore ∉ a → underscore ∉ b →
  x ∈ split underscore (a ++ underscore :: b) ↔ x = a ∨ x = b.
Proof.
  intros Ha Hb. rewrite split_app_sep, split_no_sep by done.
  rewrite elem_of_cons, list_elem_of_singleton. done.
Qed.

(** X8.  A direct channel named by two ids without "_" joined by "_" is
    open to these two identities and closed to every other: both ids pass
    the check the three direct-channel operations make, while for any other
    identity the history route answers 403, [join_dm] changes nothing and
    [send_dm] is dropped. *)
Theorem direct_channel_closed_to_third_parties s a b me :
  underscore ∉ a → underscore ∉ b → me ≠ a → me ≠ b →
  includes (split underscore (a ++ underscore :: b)) a = true ∧
  includes (split underscore (a ++ underscore :: b)) b = true ∧
  (∀ h e, authMiddleware (now e) h = inr me →
     handle_request s (mk_request h (GET_dms_messages (a ++ underscore :: b))) e
       = (s, [], error 403 "Acceso denegado")) ∧
  (∀ sid user, connectedUsers s !! sid = Some user → uid user = me →
     on_join_dm s sid (a ++ underscore :: b) = s ∧
     ∀ p e, target p = a ++ underscore :: b → on_send_dm s sid p e = (s, [])).
Proof.
  intros Ha Hb Hna Hnb.
  assert (includes (split underscore (a ++ underscore :: b)) me = false) as Hme.
  { apply includes_not_elem_of. rewrite canonical_channel_parts by done.
    by intros [?|?]. }
  split; [apply includes_elem_of, canonical_channel_parts; auto|].
  split; [apply includes_elem_of, canonical_channel_parts; auto|].
  split.
  - intros h e Hauth. unfold handle_request. simpl. rewrite Hauth. simpl.
    by rewrite Hme.
  - intros sid user Hu <-. split.
    + unfold on_join_dm. by rewrite Hu, Hme.
    + intros p e Hp. unfold on_send_dm. rewrite Hu, Hp, Hme.
      by destruct (accepted_text (text p)).
Qed.

(** ** Deleting a room message *)

Lemma filter_all {A} (P : A → Prop) `{!∀ x, Decision (P x)} (l : list A) :
  Forall P l → filter P l = l.
Proof.
  induction 1 as [|x l Hx Hl IH]; [done|].
  rewrite filter_cons, decide_True by done. by rewrite IH.
Qed.

Lemma filter_none {A} (P : A → Prop) `{!∀ x, Decision (P x)} (l : list A) :
  Forall (λ x, ¬ P x) l → filter P l = [].
Proof.
  induction 1 as [|x l Hx Hl IH]; [done|].
  by rewrite filter_cons, decide_False.
Qed.

(** X9.  The administrator's delete of a message id is answered 200 when
    the store accepts it, and afterwards no row of [messages] and no row of
    any history has that id, while [dm_messages], the registry and the
    sockets are as before.  If no message had the id, nothing changes and
    nothing is emitted; if one had, [message_deleted] with the id goes to
    the members of that message's room, each of whom receives it. *)
Theorem delete_message_retracts s h msgId e :
  authMiddleware (now e) h = inr ADMIN_UID → ADMIN_UID ≠ [] →
  fail e 0%nat = None →
  let r := handle_request s (mk_request h (DELETE_admin_messages msgId)) e in
  r.2 = ok json_ok ∧
  Forall (λ m, m_id m ≠ msgId) (messages (db r.1.1)) ∧
  (∀ room, Forall (λ row, h_id row ≠ msgId)
             (select_history (users (db r.1.1)) (messages (db r.1.1)) room)) ∧
  (∀ m, m ∈ messages (db s) → m_id m ≠ msgId → m ∈ messages (db r.1.1)) ∧
  dm_messages (db r.1.1) = dm_messages (db s) ∧
  connectedUsers r.1.1 = connectedUsers s ∧ sockets r.1.1 = sockets s ∧
  (Forall (λ m, m_id m ≠ msgId) (messages (db s)) → r.1 = (s, [])) ∧
  (∀ m, head (filter (λ m, m_id m = msgId) (messages (db s))) = Some m →
     r.1.2 = io_to_emit s (js "room_" ++ m_channel m) (message_deleted msgId) ∧
     ∀ sid, member s sid (js "room_" ++ m_channel m) →
            (sid, message_deleted msgId) ∈ r.1.2).
Proof.
  intros Hauth Hadmin Hf.
  unfold handle_request, authenticated_route, adminMiddleware. simpl.
  rewrite Hauth. simpl.
  rewrite (bool_decide_eq_false_2 (ADMIN_UID = [])) by done.
  rewrite (bool_decide_eq_true_2 (ADMIN_UID = ADMIN_UID)) by done. simpl.
  rewrite Hf. simpl.
  assert (Forall (λ m, m_id m ≠ msgId)
            (filter (λ m, m_id m ≠ msgId) (messages (db s)))) as Hgone.
  { apply Forall_forall. by intros m [? _]%list_elem_of_filter. }
  split; [done|]. split; [done|]. split.
  { intros room. apply Forall_forall. intros row Hrow.
    destruct (select_history_origin _ _ _ _ Hrow)
      as (m & [Hm _]%list_elem_of_filter & _ & Hj).
    unfold join_users in Hj. destruct (users (db s) !! m_user_id m); [|done].
    simpl in Hj. injection Hj as <-. done. }
  split. { intros m Hm Hid. by apply list_elem_of_filter. }
  split; [done|]. split; [done|]. split; [done|]. split.
  - intros Hnone. rewrite (filter_all _ _ Hnone).
    rewrite filter_none; [by destruct s as [[]]|].
    eapply Forall_impl; [done|]. naive_solver.
  - intros m Hm.
    destruct (filter (λ m, m_id m = msgId) (messages (db s))) as [|m' l];
      [done|]. injection Hm as ->. simpl. split; [done|].
    intros sid Hsid. by apply member_receives.
Qed.

(** ** Sessions *)

(** X10.  When a connected socket closes, nothing is emitted, the socket
    leaves [io.sockets.sockets] and with it every room, and its session, if
    it had one, leaves the registry, every other socket and session staying
    as it was; the store is only touched for a socket that had a session,
    whose identity gets its [last_seen] refreshed when the store accepts the
    update; and a second close of the same socket changes nothing. *)
Theorem disconnect_releases s sid e rooms :
  sockets s !! sid = Some rooms →
  let s' := (step s (Disconnect sid) e).1 in
  (step s (Disconnect sid) e).2 = mk_output [] None ∧
  sockets s' = delete sid (sockets s) ∧
  connectedUsers s' = delete sid (connectedUsers s) ∧
  (∀ room, ¬ member s' sid room) ∧
  (∀ e', step s' (Disconnect sid) e' = (s', mk_output [] None)) ∧
  db s' = match connectedUsers s !! sid, fail e 0%nat with
          | Some user, None => touch_last_seen (uid user) (now e) (db s)
          | _, _ => db s
          end.
Proof.
  intros Hs. unfold step, member. simpl. rewrite Hs. simpl.
  rewrite !on_disconnect_sockets, !on_disconnect_connectedUsers.
  split; [done|]. split; [done|]. split; [done|]. split.
  { intros room (rooms' & Hr & _). by rewrite lookup_delete_eq in Hr. }
  split.
  { intros e'. by rewrite lookup_delete_eq. }
  unfold on_disconnect. simpl.
  destruct (connectedUsers s !! sid); [|done].
  by destruct (fail e 0%nat).
Qed.

(** A request to a route other than the ban leaves the registry and the
    sockets alone. *)
Lemma request_keeps_network s r e :
  (∀ id, route r ≠ POST_admin_ban id) →
  connectedUsers (handle_request s r e).1.1 = connectedUsers s ∧
  sockets (handle_request s r e).1.1 = sockets s.
Proof.
  intros Hr. destruct r as [h ep]. simpl in Hr.
  unfold handle_request. destruct ep; simpl.
  1: { unfold post_auth_google. repeat case_match; simplify_eq/=; done. }
  all: destruct (authMiddleware (now e) h) as [resp|me]; [done|].
  all: unfold authenticated_route.
  all: try by destruct (Hr id).
  all: repeat case_match; simplify_eq/=; done.
Qed.

(** Where the sessions of the registry come from. *)
Lemma step_registry s i e sid u :
  connectedUsers (step s i e).1 !! sid = Some u →
  connectedUsers s !! sid = Some u ∨
  ∃ token row,
    i = Auth sid token ∧ is_Some (sockets s !! sid) ∧
    jwt_verify (now e) token = Some (uid u) ∧
    users (db s) !! uid u = Some row ∧ u_is_banned row = false ∧
    u = mk_session (uid u) (u_name row) (u_photo row) (u_premium row) ∧
    deliveries (step s i e).2 = [(sid, auth_ok)].
Proof.
  destruct i as [sid'|sid' token|sid' roomId|sid' chatId|sid' p|sid' p|sid'|r];
    unfold step; simpl.
  - destruct (sockets s !! sid'); simpl; eauto.
  - destruct (sockets s !! sid') eqn:Es; simpl; [|eauto].
    unfold on_auth.
    destruct (jwt_verify (now e) token) as [id|] eqn:Ej; [|eauto].
    destruct (fail e 0%nat); [eauto|].
    unfold on_auth_rows. rewrite Es.
    destruct (users (db s) !! id) as [row|] eqn:Er; [|eauto].
    destruct (u_is_banned row) eqn:Eb; [eauto|].
    destruct (fail e 1%nat); simpl.
    all: intros [[<- <-]|[_ ?]]%lookup_insert_Some; [right|by left].
    all: exists token, row; simpl; by rewrite Es.
  - destruct (sockets s !! sid') eqn:Es; simpl; [|eauto].
    unfold on_join_room, switch_to. rewrite Es. eauto.
  - destruct (sockets s !! sid') eqn:Es; simpl; [|eauto].
    unfold on_join_dm, switch_to. rewrite Es. repeat case_match; eauto.
  - destruct (sockets s !! sid'); simpl; [|eauto].
    unfold on_send_message. repeat case_match; simplify_eq/=; eauto.
  - destruct (sockets s !! sid'); simpl; [|eauto].
    unfold on_send_dm. repeat case_match; simplify_eq/=; eauto.
  - destruct (sockets s !! sid'); simpl; [|eauto].
    rewrite on_disconnect_connectedUsers.
    intros [_ ?]%lookup_delete_Some. eauto.
  - assert (connectedUsers (handle_request s r e).1.1 !! sid = Some u
            → connectedUsers s !! sid = Some u) as Hkey.
    2: { destruct (handle_request s r e) as [[s' out] resp]. simpl. eauto. }
    destruct r as [h ep].
    destruct (match ep with POST_admin_ban _ => true | _ => false end) eqn:Eban.
    + destruct ep; try discriminate.
      unfold handle_request, authenticated_route. simpl.
      destruct (authMiddleware (now e) h) as [resp|me]; [done|].
      destruct (adminMiddleware me); simpl; [|done].
      destruct (fail e 0%nat); [done|].
      destruct (foldl _ _ _) as [s2 out] eqn:Ef. simpl. intros Hu.
      pose proof (foldl_evict_registry id (now e)
                    (negb (rejected (fail e 1%nat)))
                    (map_to_list (connectedUsers s))
                    (set_db (update_is_banned id true) s, []) sid u) as Hr.
      simpl in Hr. rewrite Ef in Hr. by apply Hr.
    + destruct (request_keeps_network s (mk_request h ep) e) as [Hc _].
      { intros id. simpl. intros ->. discriminate. }
      by rewrite Hc.
Qed.

(** X11.  A session in the registry after any sequence of inputs was
    already there before, or one of the inputs was an [auth] event on that
    socket with a token that [jwt.verify] accepted for the session's
    identity.  No other event and no HTTP request creates or alters a
    session. *)
Theorem sessions_only_from_auth trace : ∀ s sid u,
  connectedUsers (run s trace) !! sid = Some u →
  connectedUsers s !! sid = Some u ∨
  ∃ token e, (Auth sid token, e) ∈ trace ∧
             jwt_verify (now e) token = Some (uid u).
Proof.
  induction trace as [|[i e] trace IH]; intros s sid u Hu; [by left|].
  assert (connectedUsers (step s i e).1 !! sid = Some u →
          connectedUsers s !! sid = Some u ∨
          ∃ token e0, (Auth sid token, e0) ∈ (i, e) :: trace ∧
                      jwt_verify (now e0) token = Some (uid u)) as Hstep.
  { intros H1.
    destruct (step_registry s i e sid u H1)
      as [?|(token & row & -> & _ & Hj & _)]; [by left|].
    right. exists token, e. split; [by left|done]. }
  simpl in Hu. destruct (exits _); [by apply Hstep|].
  destruct (IH _ _ _ Hu) as [H1|(token & e' & Hin & Hj)]; [by apply Hstep|].
  right. exists token, e'. split; [by right|done].
Qed.

Lemma step_row_kept s i e id row :
  users (db s) !! id = Some row →
  ∃ row', users (db (step s i e).1) !! id = Some row'
          ∧ u_premium row' = u_premium row.
Proof.
  intros Hrow.
  apply (writes_ind s i e
           (λ d, ∃ row', users d !! id = Some row'
                         ∧ u_premium row' = u_premium row)); [eauto|].
  intros d d' (row1 & Hrow1 & Hp) Hw.
  destruct (write_row s i e d d' id row1 Hw Hrow1) as (row2 & ? & ? & _).
  exists row2. split; [done|congruence].
Qed.

Lemma rows_row_kept s sid id' rows t r id row :
  users (db s) !! id = Some row →
  ∃ row', users (db (on_auth_rows s sid id' rows t r).1) !! id = Some row'
          ∧ u_premium row' = u_premium row.
Proof.
  intros Hrow.
  destruct (on_auth_rows_cases s sid id' rows t r)
    as [->|(row0 & d & _ & _ & [->| ->] & ->)]; simpl; [eauto|eauto|].
  erewrite lookup_alter_users by done. case_decide; eauto.
Qed.

Lemma serve_row_kept sv o e id row :
  users (db (core sv)) !! id = Some row →
  ∃ row', users (db (core (serve sv o e).1)) !! id = Some row'
          ∧ u_premium row' = u_premium row.
Proof.
  intros Hrow.
  destruct (serve_core sv o e) as [->|[[i ->]|(sid & id' & rows & r & ->)]];
    [eauto|by apply step_row_kept|by apply rows_row_kept].
Qed.

(** The registry and the lookups in flight hold nothing that the tables do
    not back. *)
Lemma backed_serve sv o e : backed sv → backed (serve sv o e).1.
Proof.
  intros [Hs Hl].
  assert (∀ id row p,
            users (db (core sv)) !! id = Some row → u_premium row = p →
            ∃ row', users (db (core (serve sv o e).1)) !! id = Some row'
                    ∧ u_premium row' = p) as Hkept.
  { intros id row p Hrow <-. by apply serve_row_kept. }
  assert (∀ lk row, lk ∈ lookups sv →
            l_status lk = lookup_returned (Some row) →
            ∃ row', users (db (core (serve sv o e).1)) !! l_uid lk = Some row'
                    ∧ u_premium row' = u_premium row) as Hl'.
  { intros lk row Hin Hst. destruct (Hl lk row Hin Hst) as (row' & ? & ?).
    by eapply Hkept. }
  assert (∀ sid u, connectedUsers (core sv) !! sid = Some u →
            ∃ row, users (db (core (serve sv o e).1)) !! uid u = Some row
                   ∧ u_premium row = premium u) as Hs'.
  { intros sid u Hu. destruct (Hs sid u Hu) as (row & ? & ?). by eapply Hkept. }
  destruct o as [i|sid token|n|n].
  - simpl in *.
    destruct (match i with Connection sid => fresh_id sv sid | _ => true end);
      [|done].
    simpl in *. split; [|done].
    intros sid u Hu.
    destruct (step_registry (core sv) i e sid u Hu)
      as [Hold|(token & row & _ & _ & _ & Hrow & _ & Hsnap & _)]; [eauto|].
    destruct (step_row_kept (core sv) i e (uid u) row Hrow) as (row' & ? & ?).
    exists row'. split; [done|]. rewrite Hsnap. simpl. congruence.
  - simpl in *. destruct (sockets (core sv) !! sid); [|done].
    destruct (jwt_verify (now e) token) as [id|]; [|done]. simpl in *.
    split; [done|].
    intros lk row [?|Hx%list_elem_of_singleton]%elem_of_app;
      [eauto|by subst lk].
  - simpl in *.
    destruct (lookups sv !! n) as [[sid id st]|] eqn:El; [|done].
    destruct st; try done. simpl in *. split; [done|].
    intros lk row [->|?]%elem_of_list_insert_inv; [|eauto]. simpl.
    destruct (fail e 0%nat); [done|]. intros [= Hrow]. eauto.
  - simpl in *.
    destruct (lookups sv !! n) as [[sid id st]|] eqn:El; [|done].
    destruct st as [|rows|err]; try done; simpl in *.
    + split; [|intros lk row ?%elem_of_list_delete; eauto].
      intros sid' u Hu.
      destruct (on_auth_rows_cases (core sv) sid id rows (now e)
                  (negb (rejected (fail e 0%nat))))
        as [Heq|(row & d & -> & _ & _ & Heq)].
      * rewrite Heq in Hu. eauto.
      * rewrite Heq in Hu. simpl in Hu.
        apply lookup_insert_Some in Hu as [[<- <-]|[_ Hu]]; [|eauto].
        simpl.
        apply (Hl' (mk_lookup sid id (lookup_returned (Some row))) row);
          [by eapply list_elem_of_lookup_2|done].
    + split; [done|]. intros lk row ?%elem_of_list_delete. eauto.
Qed.

Lemma served_backed sv : served sv → backed sv.
Proof.
  revert sv. apply served_invariant; [|apply backed_serve].
  intros d. split.
  - intros sid u. simpl. by rewrite lookup_empty.
  - intros l row H. by apply elem_of_nil in H.
Qed.

(** X12.  In every state the server can reach, however the lookups of the
    [auth] events interleave with the other handlers, every connected socket
    is in the room of its own id, and the identity of each session of the
    registry has a stored row, whose [premium] flag is the one the session
    caches.  (A session need not belong to a connected socket: the callback
    of a lookup registers it also when the socket has closed since the
    event.) *)
Theorem sessions_are_backed s :
  reachable s →
  (∀ sid rooms, sockets s !! sid = Some rooms → sid ∈ rooms) ∧
  (∀ sid u, connectedUsers s !! sid = Some u →
     ∃ row, users (db s) !! uid u = Some row ∧ u_premium row = premium u).
Proof.
  intros Hr. split; [by apply reachable_well_formed|].
  destruct Hr as (sv & Hsv & <-). by apply served_backed.
Qed.

(** X13.  The author's name, photo and premium flag in a broadcast are the
    ones the session cached when the socket authenticated: after any
    request other than a ban, in particular after the author renamed
    themselves or changed their photo, the messages an open session sends
    still carry the cached values. *)
Theorem broadcast_uses_session_profile s r e sid user p e' rcpt m :
  (∀ id, route r ≠ POST_admin_ban id) →
  connectedUsers s !! sid = Some user →
  let s' := (handle_request s r e).1.1 in
  (rcpt, new_message m) ∈ (on_send_message s' sid p e').2
  ∨ (rcpt, new_dm m) ∈ (on_send_dm s' sid p e').2 →
  w_user_id m = uid user ∧ w_name m = name user ∧
  w_photo m = photo user ∧ w_premium m = premium user.
Proof.
  intros Hr Hu s' Hin.
  assert (connectedUsers s' !! sid = Some user) as Hu'.
  { unfold s'. destruct (request_keeps_network s r e Hr) as [-> _]. done. }
  unfold on_send_message, on_send_dm, io_to_emit, socket_emit in Hin.
  rewrite Hu' in Hin.
  destruct (accepted_text (text p)); simpl in Hin;
    [|destruct Hin as [Hin|Hin]; by apply elem_of_nil in Hin].
  destruct (includes (split underscore (target p)) (uid user)); simpl in Hin;
    destruct (fail e' 0%nat); simpl in Hin.
  all: destruct Hin as [Hin|Hin].
  all: try (by apply elem_of_nil in Hin).
  all: try (apply list_elem_of_singleton in Hin; by simplify_eq).
  all: apply list_elem_of_fmap in Hin as (? & [= _ ->] & _); done.
Qed.

(** X14.  The login route needs no bearer token and, for a Google token
    that verifies while the store accepts the upsert, writes exactly the
    row of the token's [sub]: a first login creates it with the token's
    name, or "Anonymous Therian", not premium and not banned; a later login
    keeps name, email, premium and ban flag and refreshes [last_seen].  The
    photo is overwritten at every login by the token's picture, or by the
    empty string when the token has none, whatever photo was stored.  The
    answer is 200 with a token signed for [sub] unless the row is banned,
    then 403. *)
Theorem login_stores_identity s h tok g e :
  tok ≠ [] → verifyGoogleToken tok = inr g → fail e 0%nat = None →
  let r := handle_request s (mk_request h (POST_auth_google (Some tok))) e in
  ∃ row,
    users (db r.1.1) !! g_sub g = Some row ∧
    (∀ id, id ≠ g_sub g → users (db r.1.1) !! id = users (db s) !! id) ∧
    u_photo row = Some (or_else (g_picture g) []) ∧
    u_last_seen row = now e ∧
    match users (db s) !! g_sub g with
    | Some old =>
        u_name row = u_name old ∧ u_email row = u_email old ∧
        u_premium row = u_premium old ∧ u_is_banned row = u_is_banned old
    | None =>
        u_name row = or_else (g_name g) (js "Anonymous Therian") ∧
        u_email row = Some (or_else (g_email g) []) ∧
        u_premium row = false ∧ u_is_banned row = false
    end ∧
    r.2 = (if u_is_banned row
           then error 403 "Tu cuenta ha sido baneada de Therians."
           else ok (json_login (jwt_sign (now e) (g_sub g)) (g_sub g) row)) ∧
    r.1.2 = [] ∧
    messages (db r.1.1) = messages (db s) ∧
    dm_messages (db r.1.1) = dm_messages (db s) ∧
    friends (db r.1.1) = friends (db s) ∧
    connectedUsers r.1.1 = connectedUsers s ∧ sockets r.1.1 = sockets s.
Proof.
  intros Htok Hg Hf. destruct tok as [|c tok]; [done|].
  unfold handle_request, post_auth_google, upsert_user. simpl.
  rewrite Hg, Hf.
  destruct (users (db s) !! g_sub g) as [old|] eqn:Eold; simpl.
  - destruct (u_is_banned old) eqn:Eb; simpl.
    all: eexists; split; [apply lookup_insert_eq|].
    all: split; [by intros id Hid; rewrite lookup_insert_ne|].
    all: simpl; rewrite ?Eb; done.
  - eexists; split; [apply lookup_insert_eq|].
    split; [by intros id Hid; rewrite lookup_insert_ne|].
    simpl. done.
Qed.

(** X15.  After the administrator's unban of an identity that has a stored
    row, answered 200, the identity can use the service again: its login
    with a verified Google token is answered 200 and an [auth] event with
    its token on a connected socket is answered [auth_ok] and registers a
    session of that identity.  The unban itself emits nothing and leaves
    sockets and sessions as they are. *)
Theorem unban_restores_access s h id e row :
  authMiddleware (now e) h = inr ADMIN_UID → ADMIN_UID ≠ [] →
  fail e 0%nat = None →
  users (db s) !! id = Some row →
  let r := handle_request s (mk_request h (POST_admin_unban id)) e in
  r.2 = ok json_ok ∧ r.1.2 = [] ∧
  connectedUsers r.1.1 = connectedUsers s ∧ sockets r.1.1 = sockets s ∧
  (∀ h' tok g e',
     tok ≠ [] → verifyGoogleToken tok = inr g → g_sub g = id →
     fail e' 0%nat = None →
     status (handle_request r.1.1
               (mk_request h' (POST_auth_google (Some tok))) e').2 = 200) ∧
  (∀ sid token e',
     is_Some (sockets s !! sid) → jwt_verify (now e') token = Some id →
     fail e' 0%nat = None →
     deliveries (step r.1.1 (Auth sid token) e').2 = [(sid, auth_ok)] ∧
     ∃ u, connectedUsers (step r.1.1 (Auth sid token) e').1 !! sid = Some u
          ∧ uid u = id).
Proof.
  intros Hauth Hadm Hf Hrow.
  unfold handle_request, authenticated_route. simpl.
  rewrite Hauth. simpl. rewrite adminMiddleware_admin by done. simpl.
  rewrite Hf. simpl.
  split; [done|]. split; [done|]. split; [done|]. split; [done|].
  assert (users (update_is_banned id false (db s)) !! id
          = Some (mk_user (u_name row) (u_photo row) (u_email row)
                          (u_premium row) (u_last_seen row) false)) as Hrow'.
  { unfold update_is_banned. simpl. by rewrite lookup_alter_eq, Hrow. }
  split.
  - intros h' tok g e' Htok Hg Hsub Hf'. destruct tok as [|c tok]; [done|].
    unfold post_auth_google, upsert_user. simpl.
    rewrite Hg, Hf', Hsub. simpl.
    unfold update_is_banned in Hrow'. simpl in Hrow'. rewrite Hrow'. done.
  - intros sid token e' [rooms Hs] Hj Hf'. unfold step. simpl. rewrite Hs.
    unfold on_auth. simpl. rewrite Hj, Hf'. unfold on_auth_rows. simpl.
    unfold update_is_banned in Hrow'. simpl in Hrow'. rewrite Hrow', Hs. simpl.
    split; [done|].
    destruct (fail e' 1%nat); simpl; rewrite lookup_insert_eq.
    all: by eexists.
Qed.

Lemma NoDup_members s room : NoDup (members s room).
Proof.
  unfold members.
  eapply NoDup_fmap_fst.
  - intros sid r1 r2 [_ H1%elem_of_map_to_list]%list_elem_of_filter
                     [_ H2%elem_of_map_to_list]%list_elem_of_filter.
    congruence.
  - apply NoDup_filter, NoDup_map_to_list.
Qed.

(** X16.  A room message that is accepted and stored is delivered once to
    every socket that is in the room at that moment, the sender's socket
    included when it is in the room, and to no other socket; all deliveries
    carry the same [new_message].  The same holds for a direct message and
    its channel when the sender's id is listed in the channel id. *)
Theorem message_reaches_members_once s sid user p t e :
  connectedUsers s !! sid = Some user →
  accepted_text (text p) = Some t →
  fail e 0%nat = None →
  let out := (on_send_message s sid p e).2 in
  let out_dm := (on_send_dm s sid p e).2 in
  (NoDup out.*1 ∧
   (∀ rcpt, rcpt ∈ out.*1 ↔ member s rcpt (js "room_" ++ target p)) ∧
   ∃ m, ∀ d, d ∈ out → d.2 = new_message m) ∧
  (includes (split underscore (target p)) (uid user) = true →
   NoDup out_dm.*1 ∧
   (∀ rcpt, rcpt ∈ out_dm.*1 ↔ member s rcpt (js "dm_" ++ target p)) ∧
   ∃ m, ∀ d, d ∈ out_dm → d.2 = new_dm m).
Proof.
  intros Hu Ht Hf. unfold on_send_message, on_send_dm.
  rewrite Hu, Ht, Hf. simpl. split; [|intros ->; simpl].
  all: unfold io_to_emit; rewrite <- list_fmap_compose.
  all: split; [rewrite list_fmap_id; apply NoDup_members|].
  all: split; [intros rcpt; rewrite list_fmap_id, member_members; done|].
  all: eexists; intros d (? & -> & _)%list_elem_of_fmap; done.
Qed.

(** ** The schema's constraints *)

Lemma char_length_le s : (char_length s ≤ length s)%nat.
Proof.
  cut (∀ n s, (length s ≤ n)%nat → (char_length s ≤ length s)%nat).
  { intros H. by apply (H (length s)). }
  clear s. induction n as [|n IH]; intros [|c [|c' s]] Hn; simpl in *; try lia.
  destruct (is_high_surrogate c && is_low_surrogate c').
  - specialize (IH s). lia.
  - specialize (IH (c' :: s)). simpl in IH. lia.
Qed.

(** What a step adds to the message tables. *)
Lemma new_rows s i e (Q : message_row → Prop) :
  (∀ sid p user t id,
     i = SendMessage sid p ∨ i = SendDm sid p →
     connectedUsers s !! sid = Some user →
     accepted_text (text p) = Some t →
     Q (mk_message id (target p) (uid user) (utf8_round_trip t) (now e))) →
  ∀ row,
    row ∈ messages (db (step s i e).1) ++ dm_messages (db (step s i e).1) →
    row ∈ messages (db s) ++ dm_messages (db s) ∨ Q row.
Proof.
  intros HQ.
  apply (writes_ind s i e
           (λ d, ∀ r, r ∈ messages d ++ dm_messages d →
                   r ∈ messages (db s) ++ dm_messages (db s) ∨ Q r)); [by left|].
  intros d d' IH Hw r Hr.
  destruct Hw; simpl in *; try (by apply IH).
  - rewrite <- (assoc (++)), (comm (++) [_]) in Hr. rewrite (assoc (++)) in Hr.
    apply elem_of_app in Hr as [Hr|Hr%list_elem_of_singleton]; [by apply IH|].
    subst r. right. eapply HQ; eauto.
  - rewrite (assoc (++)) in Hr.
    apply elem_of_app in Hr as [Hr|Hr%list_elem_of_singleton]; [by apply IH|].
    subst r. right. eapply HQ; eauto.
  - apply IH.
    apply elem_of_app in Hr as [[_ ?]%list_elem_of_filter|?];
      apply elem_of_app; auto.
Qed.

(** X17.  The text of a row that a step adds to [messages] or
    [dm_messages] satisfies the schema's [CHECK (char_length(text) <= 500)]
    by the guard of the send handlers alone; and it is in canonical form:
    not empty, without white space at either end, and unchanged by another
    [trim]. *)
Theorem stored_text_fits_schema s i e row :
  row ∈ messages (db (step s i e).1) ++ dm_messages (db (step s i e).1) →
  row ∉ messages (db s) ++ dm_messages (db s) →
  (1 ≤ char_length (m_text row) ≤ 500)%nat ∧
  trim (m_text row) = m_text row ∧
  starts_clean (m_text row) ∧ starts_clean (reverse (m_text row)).
Proof.
  intros Hnew Hold.
  destruct (new_rows s i e
              (λ r, (1 ≤ char_length (m_text r) ≤ 500)%nat ∧
                    trim (m_text r) = m_text r ∧
                    starts_clean (m_text r) ∧ starts_clean (reverse (m_text r)))
              ) with (row := row) as [?|?]; [|done|done|done].
  intros sid p user t id _ _ (raw & _ & -> & _ & Hne & Hlen)%accepted_text_spec.
  simpl.
  destruct (trim_idempotent_and_clean raw) as (_ & Hs & He & _).
  destruct (utf8_round_trip_clean (trim raw) Hs He) as [Hs' He'].
  split; [|split; [by apply trim_clean|done]].
  split.
  - assert (utf8_round_trip (trim raw) ≠ []) as Hne'
      by (by rewrite utf8_round_trip_nil).
    destruct (utf8_round_trip (trim raw)) as [|c [|c' r]]; [done|simpl; lia|].
    simpl. destruct (_ && _); lia.
  - etrans; [apply char_length_le|]. rewrite length_utf8_round_trip.
    etrans; [apply length_trim|done].
Qed.

Lemma sessions_backed_step s i e :
  (∀ sid u, connectedUsers s !! sid = Some u → is_Some (users (db s) !! uid u)) →
  ∀ sid u, connectedUsers (step s i e).1 !! sid = Some u →
           is_Some (users (db (step s i e).1) !! uid u).
Proof.
  intros IH sid u Hu.
  destruct (step_registry s i e sid u Hu)
    as [Hold|(token & row & _ & _ & _ & Hrow & _)].
  - destruct (IH sid u Hold) as (row & Hrow).
    destruct (step_row_kept s i e (uid u) row Hrow) as (row' & ? & ?). eauto.
  - destruct (step_row_kept s i e (uid u) row Hrow) as (row' & ? & ?). eauto.
Qed.

(** X18.  The server keeps [user_id REFERENCES users(id)] by itself: when
    it starts on tables in which every message's author has a row in
    [users], this is so after any sequence of inputs, and so the join of the
    history queries drops no message. *)
Theorem message_authors_are_stored d trace :
  authors_stored d →
  authors_stored (db (run (initial d) trace)) ∧
  ∀ row, row ∈ messages (db (run (initial d) trace))
               ++ dm_messages (db (run (initial d) trace)) →
         is_Some (join_users (users (db (run (initial d) trace))) row).
Proof.
  intros Hd.
  cut (authors_stored (db (run (initial d) trace))).
  { intros H. split; [done|]. intros row [u Hu]%H.
    unfold join_users. rewrite Hu. by eexists. }
  cut ((∀ sid u, connectedUsers (run (initial d) trace) !! sid = Some u →
                 is_Some (users (db (run (initial d) trace)) !! uid u))
       ∧ authors_stored (db (run (initial d) trace))).
  { by intros [_ ?]. }
  apply (run_invariant
           (λ s, (∀ sid u, connectedUsers s !! sid = Some u →
                           is_Some (users (db s) !! uid u))
                 ∧ authors_stored (db s))).
  - intros s i e [Hs Ha]. split; [by apply sessions_backed_step|].
    intros row Hrow.
    destruct (new_rows s i e
                (λ r, ∃ sid u, connectedUsers s !! sid = Some u
                               ∧ m_user_id r = uid u))
      with (row := row) as [Hold|(sid & u & Hu & ->)]; [by eauto|done| |].
    + destruct (Ha row Hold) as [r Hr].
      destruct (step_row_kept s i e _ r Hr) as (row' & ? & ?). eauto.
    + destruct (Hs sid u Hu) as [r Hr].
      destruct (step_row_kept s i e _ r Hr) as (row' & ? & ?). eauto.
  - split; [|done]. intros sid u. simpl. by rewrite lookup_empty.
Qed.

(** ** Edge cases of the routes *)

Lemma reachable_sessions_backed s :
  reachable s →
  ∀ sid u, connectedUsers s !! sid = Some u → is_Some (users (db s) !! uid u).
Proof.
  intros (sv & [Hs _]%served_backed & <-) sid u Hu.
  destruct (Hs sid u Hu) as (row & ? & _). eauto.
Qed.

Lemma foldl_evict_absent id t r l acc :
  Forall (λ entry : jsstring * session, uid entry.2 ≠ id) l →
  foldl (evict id t r) acc l = acc.
Proof.
  revert acc. induction l as [|entry l IH]; intros acc Hl; [done|].
  apply Forall_cons in Hl as [Hentry Hl]. simpl.
  unfold evict at 2. rewrite bool_decide_eq_false_2 by done. by apply IH.
Qed.

Lemma alter_absent {A} (f : A → A) (m : gmap jsstring A) id :
  m !! id = None → alter f id m = m.
Proof.
  intros Hid. apply map_eq. intros k. destruct (decide (k = id)) as [->|].
  - by rewrite lookup_alter_eq, Hid.
  - by rewrite lookup_alter_ne.
Qed.

(** X19.  The ban of an identity that has no stored row, in a state the
    server can reach, is answered 200 although it changes nothing: no row
    is written, no socket is closed and nobody is notified.  The identity
    is not banned by it: its first login afterwards is answered 200 with a
    token. *)
Theorem ban_of_unknown_identity s h id e :
  reachable s →
  authMiddleware (now e) h = inr ADMIN_UID → ADMIN_UID ≠ [] →
  fail e 0%nat = None →
  users (db s) !! id = None →
  handle_request s (mk_request h (POST_admin_ban id)) e = (s, [], ok json_ok) ∧
  ∀ h' tok g e',
    tok ≠ [] → verifyGoogleToken tok = inr g → g_sub g = id →
    fail e' 0%nat = None →
    ∃ row,
      (handle_request s (mk_request h' (POST_auth_google (Some tok))) e').2
        = ok (json_login (jwt_sign (now e') id) id row)
      ∧ u_is_banned row = false.
Proof.
  intros Hreach Hauth Hadm Hf Hid. split.
  - unfold handle_request, authenticated_route. simpl.
    rewrite Hauth. simpl. rewrite adminMiddleware_admin by done. simpl.
    rewrite Hf.
    assert (set_db (update_is_banned id true) s = s) as ->.
    { unfold set_db, update_is_banned, set_users.
      rewrite alter_absent by done. by destruct s as [[]]. }
    rewrite foldl_evict_absent; [done|].
    apply Forall_forall. intros [sid u] Hin%elem_of_map_to_list. simpl.
    intros Hu. destruct (reachable_sessions_backed s Hreach sid u Hin) as [row Hrow].
    congruence.
  - intros h' tok g e' Htok Hg Hsub Hf'. destruct tok as [|c tok]; [done|].
    unfold handle_request, post_auth_google, upsert_user. simpl.
    rewrite Hg, Hf', Hsub, Hid. simpl. by eexists.
Qed.

(** X20.  Adding a friend, when the store accepts the insert, stores the
    friendship in both directions and nothing else, answers 200 and
    notifies nobody; adding the same friend again changes nothing; and
    afterwards each of the two finds the other,
    with the other's stored row, in the list of [GET /api/friends], provided
    the other has a row.  Adding oneself is answered 400 and stores
    nothing. *)
Theorem add_friend_round_trip s h friendId e me :
  authMiddleware (now e) h = inr me → fail e 0%nat = None →
  let r := handle_request s (mk_request h (POST_friends friendId)) e in
  (friendId = me →
   r = (s, [], error 400 "No puedes agregarte a ti mismo")) ∧
  (friendId ≠ me →
   r.2 = ok json_ok ∧ r.1.2 = [] ∧
   friends (db r.1.1) = {[ (me, friendId); (friendId, me) ]} ∪ friends (db s) ∧
   users (db r.1.1) = users (db s) ∧
   messages (db r.1.1) = messages (db s) ∧
   dm_messages (db r.1.1) = dm_messages (db s) ∧
   (∀ h' e', authMiddleware (now e') h' = inr me → fail e' 0%nat = None →
      let r' := handle_request r.1.1 (mk_request h' (POST_friends friendId)) e' in
      r'.2 = ok json_ok ∧ friends (db r'.1.1) = friends (db r.1.1)) ∧
   (∀ a b h' e' row,
      (a = me ∧ b = friendId) ∨ (a = friendId ∧ b = me) →
      users (db s) !! b = Some row →
      authMiddleware (now e') h' = inr a → fail e' 0%nat = None →
      ∃ rows,
        (handle_request r.1.1 (mk_request h' GET_friends) e').2
          = ok (json_friends rows) ∧ (b, row) ∈ rows)).
Proof.
  intros Hauth Hf. unfold handle_request, authenticated_route. simpl.
  rewrite Hauth. simpl. split.
  { intros ->. by rewrite bool_decide_eq_true_2. }
  intros Hne. rewrite bool_decide_eq_false_2 by done. rewrite Hf. simpl.
  split; [done|]. split; [done|]. split; [done|]. split; [done|].
  split; [done|]. split; [done|]. split.
  - intros h' e' Hauth' Hf'. rewrite Hauth'. simpl.
    rewrite bool_decide_eq_false_2 by done. rewrite Hf'. simpl.
    split; [done|]. set_solver.
  - intros a b h' e' row Hab Hrow Hauth' Hf'. rewrite Hauth'. simpl.
    rewrite Hf'. eexists. split; [done|].
    unfold select_friends. simpl.
    apply list_elem_of_omap. exists (a, b). simpl. rewrite Hrow. split; [|done].
    apply list_elem_of_filter. split; [done|].
    apply elem_of_elements. set_solver.
Qed.


(** X22.  The ban flag is read by the login route and by the [auth] event
    only: [authMiddleware] checks the bearer token and nothing else, so on
    every other route a request is answered with the same status whether or
    not an identity, the caller included, has been flagged as banned.  A
    banned identity that still holds a token is served until the token
    expires. *)
Theorem banned_token_still_served s r e id :
  (∀ idToken, route r ≠ POST_auth_google idToken) →
  status (handle_request (set_db (update_is_banned id true) s) r e).2
  = status (handle_request s r e).2.
Proof.
  intros Hr. destruct r as [h ep]. simpl in Hr.
  assert (∀ k, is_Some (users (update_is_banned id true (db s)) !! k)
               ↔ is_Some (users (db s) !! k)) as Hsome.
  { intros k. unfold update_is_banned. simpl.
    destruct (decide (id = k)) as [->|].
    - rewrite lookup_alter_eq. apply fmap_is_Some.
    - by rewrite lookup_alter_ne. }
  unfold handle_request. destruct ep; simpl; try by destruct (Hr idToken).
  all: destruct (authMiddleware (now e) h) as [resp|me]; [done|].
  all: unfold authenticated_route; simpl.
  all: try (repeat case_match; done).
  - destruct (fail e 0%nat); [done|].
    specialize (Hsome me). simpl in Hsome.
    destruct (alter _ id (users (db s)) !! me) as [u|] eqn:E1;
      destruct (users (db s) !! me) as [u'|] eqn:E2; try done.
    + destruct Hsome as [Hsome _]. by destruct Hsome.
    + destruct Hsome as [_ Hsome]. by destruct Hsome.
  - destruct (fail e 0%nat); [done|].
    specialize (Hsome id0). simpl in Hsome.
    destruct (alter _ id (users (db s)) !! id0) as [u|] eqn:E1;
      destruct (users (db s) !! id0) as [u'|] eqn:E2; try done.
    + destruct Hsome as [Hsome _]. by destruct Hsome.
    + destruct Hsome as [_ Hsome]. by destruct Hsome.
Qed.

End Server.


(** ** The example deployment at work *)

#[local] Existing Instance ex_externals.

Example split_example : split underscore (js "a_b_c") = [js "a"; js "b"; js "c"].
Proof. reflexivity. Qed.

Example split_trailing : split underscore (js "a_") = [js "a"; []].
Proof. reflexivity. Qed.

Example trim_example : trim (js "  hi there ") = js "hi there".
Proof. reflexivity. Qed.

Lemma ex_server_served :
  served ex_server.
Proof. exists ex_db, ex_occurrences. vm_compute. reflexivity. Qed.

Lemma ex_online_reachable :
  reachable ex_online.
Proof. exists ex_server. split; [apply ex_server_served|reflexivity]. Qed.

(** The inputs of [ex_trace], each [auth] handled at once, lead to the same
    state. *)
Example ex_trace_online :
  run (initial ex_db) ex_trace = ex_online.
Proof. vm_compute. reflexivity. Qed.

(** C1.  The history query on a room that holds 81 messages, created at
    times 1 to 81: the rows returned (also as the body of the route's
    response) are the messages 1 to 80, the oldest 80, in ascending order,
    and the newest message, 81, is not among them; the last 80 messages of
    the channel are the messages 2 to 81. *)
Theorem history_returns_oldest_80 :
  h_id <$> select_history ex_users ex_lounge (js "lounge")
    = Z.of_nat <$> seq 1 80 ∧
  h_id <$> spec_last_80 ex_users ex_lounge (js "lounge")
    = Z.of_nat <$> seq 2 80 ∧
  (handle_request (mk_state (mk_db ex_users ex_lounge 82 [] 1 ∅) ∅ ∅)
     (mk_request (ex_bearer "b") (GET_rooms_messages (js "lounge")))
     (ex_env 100)).2
    = ok (json_rows (select_history ex_users ex_lounge (js "lounge"))).
Proof. split; [|split]; vm_compute; reflexivity. Qed.

(** C2, as stated, fails: "a", authenticated on "s1" and in no room but the
    socket's own, sends "hi" to the room "lounge"; the message is stored. *)
Lemma send_to_unjoined_room_is_persisted :
  sockets ex_online !! js "s1" = Some {[ js "s1" ]} ∧
  trim (js "hi") = js "hi" ∧
  messages (db (on_send_message ex_online (js "s1")
                  (mk_payload (js "lounge") (Some (js "hi")) []) (ex_env 9)).1)
    = [mk_message 1 (js "lounge") (js "a") (js "hi") 9].
Proof. repeat split; vm_compute; reflexivity. Qed.

(** A send whose text is only white space is dropped. *)
Lemma send_dropped_exactly_when_witness :
  on_send_message ex_online (js "s1")
    (mk_payload (js "lounge") (Some (js "   ")) []) (ex_env 9) = (ex_online, []).
Proof.
  apply (proj1 (send_dropped_exactly_when ex_online (js "s1")
                  (mk_payload (js "lounge") (Some (js "   ")) []) (ex_env 9))).
  right. simpl. left. reflexivity.
Defined.

(** C3, as stated, fails: "a" joins the direct channel "a_b_c", whose name
    has three parts. *)
Lemma join_dm_with_three_ids :
  split underscore (js "a_b_c") = [js "a"; js "b"; js "c"] ∧
  uid <$> connectedUsers ex_online !! js "s1" = Some (js "a") ∧
  sockets (step ex_online (JoinDm (js "s1") (js "a_b_c")) (ex_env 9)).1
    !! js "s1" = Some {[ js "s1"; js "dm_a_b_c" ]}.
Proof. repeat split; vm_compute; reflexivity. Qed.

(** "a" joins "a_b", and its attempt on "b_c" changes nothing. *)
Lemma join_dm_when_id_listed_witness :
  (step ex_online (JoinDm (js "s1") (js "a_b")) (ex_env 9)).1 =
    set_sockets <[js "s1" := leave_others (js "s1") {[ js "s1" ]}
                               ∪ {[ js "dm_" ++ js "a_b" ]}]> ex_online ∧
  (step ex_online (JoinDm (js "s1") (js "b_c")) (ex_env 9)).1 = ex_online.
Proof.
  destruct (join_dm_when_id_listed ex_online (js "s1") (js "a_b") (ex_env 9)
              {[ js "s1" ]}) as (_ & Hjoin & _); [vm_compute; reflexivity|].
  destruct (join_dm_when_id_listed ex_online (js "s1") (js "b_c") (ex_env 9)
              {[ js "s1" ]}) as (_ & _ & Hnot); [vm_compute; reflexivity|].
  split.
  - apply Hjoin. exists (mk_session (js "a") (js "Ann") None false).
    split; [vm_compute; reflexivity|]. compute_done.
  - apply Hnot. intros (user & Hu & Hin).
    assert (user = mk_session (js "a") (js "Ann") None false) as ->.
    { vm_compute in Hu. by injection Hu. }
    revert Hin. compute_done.
Defined.



(** The store rejects the insert of a valid room send: the sender alone
    hears of it. *)
Lemma broadcast_only_after_persistence_witness :
  step ex_online
    (SendMessage (js "s1") (mk_payload (js "lounge") (Some (js "hi")) []))
    (ex_env_down 9)
  = (ex_online,
     mk_output [(js "s1", message_error (js "connection refused"))] None).
Proof.
  destruct (broadcast_only_after_persistence ex_online
              (SendMessage (js "s1") (mk_payload (js "lounge") (Some (js "hi")) []))
              (ex_env_down 9)) as (_ & _ & Hfail).
  apply (Hfail (js "s1") (mk_payload (js "lounge") (Some (js "hi")) [])
               (mk_session (js "a") (js "Ann") None false) (js "hi")
               (js "connection refused")); try (vm_compute; reflexivity).
  vm_compute. eauto.
Defined.



(** "a" sends " hi " with an id and a timestamp of its own to the room that
    "b" has joined, and to the direct channel "a_b" that "b" has joined. *)
Lemma broadcast_carries_persisted_id_and_time_witness :
  let st := (step ex_online (JoinRoom (js "s2") (js "lounge")) (ex_env 8)).1 in
  let p := mk_payload (js "lounge") (Some (js " hi "))
             [(js "id", js "999"); (js "created_at", js "0")] in
  let sd := (step ex_online (JoinDm (js "s2") (js "a_b")) (ex_env 8)).1 in
  let q := mk_payload (js "a_b") (Some (js " hi "))
             [(js "id", js "999"); (js "created_at", js "0")] in
  ((js "s2", new_message (mk_wire 1 (js "lounge") (js "a") (js "Ann") None false
                                  (js "hi") 9))
     ∈ (on_send_message st (js "s1") p (ex_env 9)).2 ∧
   (∃ m, (js "s2", new_message m) ∈ (on_send_message st (js "s1") p (ex_env 9)).2
         ∧ w_id m = 1 ∧ w_created_at m = 9) ∧
   messages (db (on_send_message st (js "s1") p (ex_env 9)).1)
     = [mk_message 1 (js "lounge") (js "a") (js "hi") 9] ∧
   on_send_message st (js "s1") (mk_payload (js "lounge") (Some (js " hi ")) [])
                   (ex_env 9) = on_send_message st (js "s1") p (ex_env 9)) ∧
  ((js "s2", new_dm (mk_wire 1 (js "a_b") (js "a") (js "Ann") None false
                             (js "hi") 9))
     ∈ (on_send_dm sd (js "s1") q (ex_env 9)).2 ∧
   (∃ m, (js "s2", new_dm m) ∈ (on_send_dm sd (js "s1") q (ex_env 9)).2
         ∧ w_id m = 1 ∧ w_created_at m = 9) ∧
   dm_messages (db (on_send_dm sd (js "s1") q (ex_env 9)).1)
     = [mk_message 1 (js "a_b") (js "a") (js "hi") 9] ∧
   on_send_dm sd (js "s1") (mk_payload (js "a_b") (Some (js " hi ")) [])
              (ex_env 9) = on_send_dm sd (js "s1") q (ex_env 9)).
Proof.
  intros st p sd q. split.
  - destruct (broadcast_carries_persisted_id_and_time st (js "s1") p (ex_env 9)
                (mk_session (js "a") (js "Ann") None false) (js "hi"))
      as [(Hrows & Hid & Htime & Hrecv & _ & Hsame) _];
      [vm_compute; reflexivity..|].
    split; [vm_compute; constructor|]. split; [|split].
    + destruct (Hrecv (js "s2")) as (m & Hin & Hm1 & Hm2).
      { exists {[ js "s2"; js "room_lounge" ]}.
        split; [vm_compute; reflexivity|compute_done]. }
      exists m. split; [exact Hin|]. rewrite Hm1, Hm2, Hid, Htime.
      split; reflexivity.
    + rewrite Hrows. vm_compute. reflexivity.
    + apply Hsame; reflexivity.
  - destruct (broadcast_carries_persisted_id_and_time sd (js "s1") q (ex_env 9)
                (mk_session (js "a") (js "Ann") None false) (js "hi"))
      as [_ Hdm]; [vm_compute; reflexivity..|].
    destruct Hdm as (Hrows & Hid & Htime & Hrecv & _ & Hsame);
      [compute_done|].
    split; [vm_compute; constructor|]. split; [|split].
    + destruct (Hrecv (js "s2")) as (m & Hin & Hm1 & Hm2).
      { exists {[ js "s2"; js "dm_a_b" ]}.
        split; [vm_compute; reflexivity|compute_done]. }
      exists m. split; [exact Hin|]. rewrite Hm1, Hm2, Hid, Htime.
      split; reflexivity.
    + rewrite Hrows. vm_compute. reflexivity.
    + apply Hsame; reflexivity.
Defined.

(** "a" joins the room "lounge". *)
Lemma one_channel_per_connection_witness :
  single_channel ex_online ∧
  single_channel (step ex_online (JoinRoom (js "s1") (js "lounge")) (ex_env 8)).1 ∧
  sockets (step ex_online (JoinRoom (js "s1") (js "lounge")) (ex_env 8)).1
    !! js "s1" = Some {[ js "s1"; js "room_lounge" ]}.
Proof.
  destruct (one_channel_per_connection ex_online) as (Hnow & Hnext & _).
  - apply ex_online_reachable.
  - split; [exact Hnow|]. split; [apply Hnext|]. vm_compute. reflexivity.
Defined.

(** The socket "s3", which never authenticated, joins "lounge"; then "b"
    joins too and "a" sends to the room. *)
Lemma join_room_without_session_witness :
  let s' := run (step ex_online (JoinRoom (js "s3") (js "lounge")) (ex_env 8)).1
              [(JoinRoom (js "s2") (js "lounge"), ex_env 9)] in
  let p := mk_payload (js "lounge") (Some (js "hi")) [] in
  connectedUsers ex_online !! js "s3" = None ∧
  member s' (js "s3") (js "room_" ++ js "lounge") ∧
  (∃ m, w_text m = js "hi" ∧ w_user_id m = js "a" ∧
        (js "s3", new_message m)
          ∈ deliveries (step s' (SendMessage (js "s1") p) (ex_env 10)).2) ∧
  step s' (SendMessage (js "s3") p) (ex_env 10) = (s', mk_output [] None).
Proof.
  intros s' p.
  destruct (join_room_without_session ex_online (js "s3") {[ js "s3" ]}
              (js "lounge") (ex_env 8)
              [(JoinRoom (js "s2") (js "lounge"), ex_env 9)])
    as (_ & Hmem & _ & _ & Hsend & Hdrop).
  - vm_compute. reflexivity.
  - vm_compute. reflexivity.
  - repeat constructor. simpl. discriminate.
  - split; [vm_compute; reflexivity|]. split; [exact Hmem|]. split.
    + apply (Hsend (js "s1") p (ex_env 10)
                   (mk_session (js "a") (js "Ann") None false) (js "hi"));
        try (vm_compute; reflexivity). vm_compute. eauto.
    + apply Hdrop.
Defined.

(** C10, as stated, fails: "a" sends a text that starts with a high
    surrogate that no low surrogate follows.  The text has no white space
    at either end, so it is its own trimmed form; the stored text has
    U+FFFD in the place of the surrogate. *)
Lemma stored_text_replaces_lone_surrogate :
  let raw := [55357; 104; 105]%N in
  let i := SendMessage (js "s1") (mk_payload (js "lounge") (Some raw) []) in
  trim raw = raw ∧
  messages (db (step ex_online i (ex_env 9)).1)
    = [mk_message 1 (js "lounge") (js "a") [65533; 104; 105]%N 9] ∧
  [65533; 104; 105]%N ≠ trim raw.
Proof. repeat split; vm_compute; (reflexivity || discriminate). Qed.

(** The row stored for the " hi " that "a" sends to "lounge" holds "hi";
    and a text of 501 characters, "hi" followed by 499 spaces, is dropped
    although its trimmed form has two. *)
Lemma persisted_text_trimmed_and_bounded_witness :
  let i := SendMessage (js "s1") (mk_payload (js "lounge") (Some (js " hi ")) []) in
  let row := mk_message 1 (js "lounge") (js "a") (js "hi") 9 in
  let raw := js "hi" ++ replicate 499 space in
  (row ∈ messages (db (step ex_online i (ex_env 9)).1) ∧
   m_text row = trim (js " hi ") ∧ m_text row ≠ [] ∧
   (length (m_text row) ≤ 500)%nat) ∧
  length (trim raw) = 2%nat ∧
  step ex_online
    (SendMessage (js "s1") (mk_payload (js "lounge") (Some raw) [])) (ex_env 9)
  = (ex_online, mk_output [] None).
Proof.
  intros i row raw. split; [|split; [vm_compute; reflexivity|]].
  - destruct (persisted_text_trimmed_and_bounded ex_online i (ex_env 9))
      as [Hrow _].
    destruct (Hrow row) as (sid & p & raw' & Hi & Htext & _ & Hwf & Hne & _ & Hlen & _).
    { vm_compute. constructor. }
    { vm_compute. inversion 1. }
    assert (raw' = js " hi ") as ->.
    { destruct Hi as [Hi|Hi]; [|discriminate].
      injection Hi as _ <-. simpl in Htext. by injection Htext. }
    split; [vm_compute; constructor|].
    split; [apply Hwf; vm_compute; reflexivity|]. split; [exact Hne|exact Hlen].
  - destruct (persisted_text_trimmed_and_bounded ex_online
                (SendMessage (js "s1") (mk_payload (js "lounge") (Some raw) []))
                (ex_env 9)) as [_ Hlong].
    apply (Hlong (js "s1") (mk_payload (js "lounge") (Some raw) []) raw);
      [by left|reflexivity|vm_compute; lia].
Defined.

(** ** The further properties on the example deployment *)

(** The status route and the configuration summary, called without a
    token; a request with the token of "a", and one without a token. *)
Lemma bearer_token_required_witness :
  (handle_request ex_online (mk_request None GET_root) (ex_env 7)
     = (ex_online, [], ok (json_status (js "ok") (js "Therian Chat API v2"))) ∧
   status (handle_request ex_online (mk_request None GET_debug_env)
             (ex_env 7)).2 = 200) ∧
  handle_request ex_online (mk_request (ex_bearer "a") GET_friends) (ex_env 7)
    = authenticated_route ex_online (js "a") GET_friends (ex_env 7) ∧
  ∃ msg, handle_request ex_online (mk_request None GET_friends) (ex_env 7)
           = (ex_online, [], mk_response 401 (json_error msg)).
Proof.
  split; [split|split].
  - reflexivity.
  - destruct (bearer_token_required ex_online
                (mk_request None GET_debug_env) (ex_env 7)) as [H _].
    apply H. by right.
  - destruct (bearer_token_required ex_online
                (mk_request (ex_bearer "a") GET_friends) (ex_env 7)) as [_ H].
    destruct H as [H _]; [reflexivity|].
    apply (H (js "a") (js "a") (js "a")); reflexivity.
  - destruct (bearer_token_required ex_online
                (mk_request None GET_friends) (ex_env 7)) as [_ H].
    destruct H as [_ H]; [reflexivity|].
    apply H. intros (rest & tok & me & Hh & _). discriminate.
Defined.

(** "a", who is not the administrator, calls the unban route. *)
Lemma admin_routes_only_for_admin_witness :
  status (handle_request ex_online
            (mk_request (ex_bearer "a") (POST_admin_unban (js "x")))
            (ex_env 7)).2 ≠ 200 ∧
  (handle_request ex_online
     (mk_request (ex_bearer "a") (POST_admin_unban (js "x"))) (ex_env 7)).1
    = (ex_online, []).
Proof.
  apply (admin_routes_only_for_admin ex_online
           (mk_request (ex_bearer "a") (POST_admin_unban (js "x"))) (ex_env 7)).
  - reflexivity.
  - left. vm_compute. discriminate.
Defined.

(** "a" adds "b" as a friend. *)
Lemma friendships_stay_symmetric_witness :
  let trace := [(Http (mk_request (ex_bearer "a") (POST_friends (js "b"))),
                 ex_env 7)] in
  friends_ok (db (run ex_online trace)) ∧
  friends (db ex_online) ⊆ friends (db (run ex_online trace)).
Proof.
  intros trace. apply (friendships_stay_symmetric ex_online trace).
  split; intros *; simpl; set_solver.
Defined.

(** "a" sends "hi" to the room "lounge". *)
Lemma message_ids_fresh_witness :
  let i := SendMessage (js "s1") (mk_payload (js "lounge") (Some (js "hi")) []) in
  sequences_ahead (db (step ex_online i (ex_env 9)).1) ∧
  NoDup (m_id <$> messages (db (step ex_online i (ex_env 9)).1)).
Proof.
  intros i.
  destruct (message_ids_fresh ex_online i (ex_env 9)) as (H1 & H2 & _).
  - repeat split; constructor.
  - split; [exact H1|exact H2].
Defined.



(** The administrator asks for the history of the direct channel "a_b". *)
Lemma direct_channel_closed_to_third_parties_witness :
  handle_request ex_online
    (mk_request (ex_bearer "admin")
                (GET_dms_messages (js "a" ++ underscore :: js "b"))) (ex_env 7)
  = (ex_online, [], error 403 "Acceso denegado").
Proof.
  destruct (direct_channel_closed_to_third_parties ex_online (js "a") (js "b")
              (js "admin")) as (_ & _ & H & _).
  - vm_compute. inversion 1; subst. match goal with H : _ |- _ => inversion H end.
  - vm_compute. inversion 1; subst. match goal with H : _ |- _ => inversion H end.
  - vm_compute. discriminate.
  - vm_compute. discriminate.
  - apply H. vm_compute. reflexivity.
Defined.

(** The administrator deletes the message 5, which does not exist. *)
Lemma delete_message_retracts_witness :
  let r := handle_request ex_online
             (mk_request (ex_bearer "admin") (DELETE_admin_messages 5))
             (ex_env 7) in
  r.2 = ok json_ok ∧ r.1 = (ex_online, []).
Proof.
  intros r.
  destruct (delete_message_retracts ex_online (ex_bearer "admin") 5 (ex_env 7))
    as (H1 & _ & _ & _ & _ & _ & _ & H2 & _).
  - vm_compute. reflexivity.
  - vm_compute. discriminate.
  - reflexivity.
  - split; [exact H1|]. apply H2. constructor.
Defined.

(** The socket "s1" of "a" closes. *)
Lemma disconnect_releases_witness :
  connectedUsers (step ex_online (Disconnect (js "s1")) (ex_env 9)).1
    = delete (js "s1") (connectedUsers ex_online) ∧
  ∀ room, ¬ member (step ex_online (Disconnect (js "s1")) (ex_env 9)).1
                   (js "s1") room.
Proof.
  destruct (disconnect_releases ex_online (js "s1") (ex_env 9) {[ js "s1" ]})
    as (_ & _ & H1 & H2 & _).
  - vm_compute. reflexivity.
  - split; [exact H1|exact H2].
Defined.

(** The session of "a" on "s1" in [ex_online] comes from the [auth] event
    of [ex_trace]. *)
Lemma sessions_only_from_auth_witness :
  connectedUsers (initial ex_db) !! js "s1"
    = Some (mk_session (js "a") (js "Ann") None false) ∨
  ∃ token e, (Auth (js "s1") token, e) ∈ ex_trace ∧
             jwt_verify (now e) token = Some (js "a").
Proof.
  apply (sessions_only_from_auth ex_trace (initial ex_db) (js "s1")
           (mk_session (js "a") (js "Ann") None false)).
  vm_compute. reflexivity.
Defined.

(** A socket that closes while the lookup of its [auth] event is in
    flight is registered when the callback runs: the registry then holds a
    session of a socket that is not connected. *)
Example session_after_disconnect :
  let sv := serve_run ex_server
              [(AuthEvent (js "s3") (js "a"), ex_env 4);
               (Handle (Disconnect (js "s3")), ex_env 5);
               (AuthLookup 0, ex_env 6); (AuthCallback 0, ex_env 6)] in
  served sv ∧ sockets (core sv) !! js "s3" = None ∧
  connectedUsers (core sv) !! js "s3"
    = Some (mk_session (js "a") (js "Ann") None false).
Proof.
  split; [|split; vm_compute; reflexivity].
  exists ex_db, (ex_occurrences ++
                   [(AuthEvent (js "s3") (js "a"), ex_env 4);
                    (Handle (Disconnect (js "s3")), ex_env 5);
                    (AuthLookup 0, ex_env 6); (AuthCallback 0, ex_env 6)]).
  vm_compute. reflexivity.
Qed.

(** The socket "s1" and the session of "a" on it. *)
Lemma sessions_are_backed_witness :
  js "s1" ∈ ({[ js "s1" ]} : gset jsstring) ∧
  ∃ row, users (db ex_online) !! js "a" = Some row ∧ u_premium row = false.
Proof.
  destruct (sessions_are_backed ex_online ex_online_reachable) as [Hown Hrow].
  split.
  - apply (Hown (js "s1")). vm_compute. reflexivity.
  - apply (Hrow (js "s1") (mk_session (js "a") (js "Ann") None false)).
    vm_compute. reflexivity.
Defined.

(** "b" is in the room "lounge"; "a" renames themselves to "Anna" and then
    sends "hi" to the room: the message "b" receives is signed "Ann". *)
Lemma broadcast_uses_session_profile_witness :
  let st := (step ex_online (JoinRoom (js "s2") (js "lounge")) (ex_env 8)).1 in
  let r := mk_request (ex_bearer "a") (PUT_users_me_name (Some (js "Anna"))) in
  let p := mk_payload (js "lounge") (Some (js "hi")) [] in
  let m := mk_wire 1 (js "lounge") (js "a") (js "Ann") None false (js "hi") 9 in
  u_name <$> users (db (handle_request st r (ex_env 8)).1.1) !! js "a"
    = Some (js "Anna") ∧
  (js "s2", new_message m)
    ∈ (on_send_message (handle_request st r (ex_env 8)).1.1 (js "s1") p
         (ex_env 9)).2 ∧
  w_name m = js "Ann".
Proof.
  intros st r p m.
  assert ((js "s2", new_message m)
            ∈ (on_send_message (handle_request st r (ex_env 8)).1.1 (js "s1") p
                 (ex_env 9)).2) as Hin by (vm_compute; constructor).
  split; [vm_compute; reflexivity|]. split; [exact Hin|].
  apply (broadcast_uses_session_profile st r (ex_env 8) (js "s1")
           (mk_session (js "a") (js "Ann") None false) p (ex_env 9) (js "s2") m).
  - intros id. simpl. discriminate.
  - vm_compute. reflexivity.
  - left. exact Hin.
Defined.

(** "a" logs in again with a Google token that has no picture. *)
Lemma login_stores_identity_witness :
  let r := handle_request ex_online
             (mk_request None (POST_auth_google (Some (js "a")))) (ex_env 7) in
  ∃ row, users (db r.1.1) !! js "a" = Some row ∧
         u_photo row = Some [] ∧ u_last_seen row = 7.
Proof.
  intros r.
  destruct (login_stores_identity ex_online None (js "a")
              (mk_google (js "a") None None None) (ex_env 7))
    as (row & H1 & _ & H2 & H3 & _).
  - vm_compute. discriminate.
  - reflexivity.
  - reflexivity.
  - exists row. split; [exact H1|]. split; [exact H2|exact H3].
Defined.

(** The administrator lifts the ban of "x", who then logs in. *)
Lemma unban_restores_access_witness :
  let r := handle_request ex_online
             (mk_request (ex_bearer "admin") (POST_admin_unban (js "x")))
             (ex_env 7) in
  status (handle_request ex_online
            (mk_request None (POST_auth_google (Some (js "x")))) (ex_env 8)).2
    = 403 ∧
  status (handle_request r.1.1
            (mk_request None (POST_auth_google (Some (js "x")))) (ex_env 8)).2
    = 200.
Proof.
  intros r. split; [vm_compute; reflexivity|].
  destruct (unban_restores_access ex_online (ex_bearer "admin") (js "x")
              (ex_env 7) (ex_user "Xavier" true)) as (_ & _ & _ & _ & H & _).
  - vm_compute. reflexivity.
  - vm_compute. discriminate.
  - reflexivity.
  - vm_compute. reflexivity.
  - apply (H None (js "x") (mk_google (js "x") None None None) (ex_env 8));
      [vm_compute; discriminate|reflexivity..].
Defined.

(** "b" is in the room "lounge" and "a" sends "hi" to it. *)
Lemma message_reaches_members_once_witness :
  let st := (step ex_online (JoinRoom (js "s2") (js "lounge")) (ex_env 8)).1 in
  let p := mk_payload (js "lounge") (Some (js "hi")) [] in
  NoDup (on_send_message st (js "s1") p (ex_env 9)).2.*1 ∧
  ∀ rcpt, rcpt ∈ (on_send_message st (js "s1") p (ex_env 9)).2.*1
          ↔ member st rcpt (js "room_" ++ js "lounge").
Proof.
  intros st p.
  destruct (message_reaches_members_once st (js "s1")
              (mk_session (js "a") (js "Ann") None false) p (js "hi") (ex_env 9))
    as [(H1 & H2 & _) _].
  - vm_compute. reflexivity.
  - vm_compute. reflexivity.
  - reflexivity.
  - split; [exact H1|exact H2].
Defined.

(** The row stored for the " hi " that "a" sends to "lounge". *)
Lemma stored_text_fits_schema_witness :
  let i := SendMessage (js "s1")
             (mk_payload (js "lounge") (Some (js " hi ")) []) in
  let row := mk_message 1 (js "lounge") (js "a") (js "hi") 9 in
  (1 ≤ char_length (m_text row) ≤ 500)%nat ∧
  trim (m_text row) = m_text row ∧
  starts_clean (m_text row) ∧ starts_clean (reverse (m_text row)).
Proof.
  intros i row.
  apply (stored_text_fits_schema ex_online i (ex_env 9) row).
  - vm_compute. constructor.
  - vm_compute. inversion 1.
Defined.

(** The example directory, after [ex_trace] and a message of "a". *)
Lemma message_authors_are_stored_witness :
  let trace :=
    ex_trace ++ [(SendMessage (js "s1")
                    (mk_payload (js "lounge") (Some (js "hi")) []), ex_env 9)] in
  authors_stored (db (run (initial ex_db) trace)) ∧
  ∀ row, row ∈ messages (db (run (initial ex_db) trace))
               ++ dm_messages (db (run (initial ex_db) trace)) →
         is_Some (join_users (users (db (run (initial ex_db) trace))) row).
Proof.
  intros trace. apply (message_authors_are_stored ex_db trace).
  intros row Hrow. simpl in Hrow. by apply elem_of_nil in Hrow.
Defined.

(** The administrator bans "ghost", who has never logged in. *)
Lemma ban_of_unknown_identity_witness :
  handle_request ex_online
    (mk_request (ex_bearer "admin") (POST_admin_ban (js "ghost"))) (ex_env 7)
  = (ex_online, [], ok json_ok).
Proof.
  apply (ban_of_unknown_identity ex_online (ex_bearer "admin") (js "ghost")
           (ex_env 7)).
  - apply ex_online_reachable.
  - vm_compute. reflexivity.
  - vm_compute. discriminate.
  - reflexivity.
  - vm_compute. reflexivity.
Defined.

(** "a" adds "b" as a friend. *)
Lemma add_friend_round_trip_witness :
  let r := handle_request ex_online
             (mk_request (ex_bearer "a") (POST_friends (js "b"))) (ex_env 7) in
  r.2 = ok json_ok ∧
  friends (db r.1.1)
    = {[ (js "a", js "b"); (js "b", js "a") ]} ∪ friends (db ex_online).
Proof.
  intros r.
  destruct (add_friend_round_trip ex_online (ex_bearer "a") (js "b") (ex_env 7)
              (js "a")) as [_ H].
  - vm_compute. reflexivity.
  - reflexivity.
  - destruct H as (H1 & _ & H2 & _); [vm_compute; discriminate|].
    split; [exact H1|exact H2].
Defined.


(** "a" asks for the list of friends, flagged as banned or not. *)
Lemma banned_token_still_served_witness :
  let r := mk_request (ex_bearer "a") GET_friends in
  status (handle_request (set_db (update_is_banned (js "a") true) ex_online)
            r (ex_env 7)).2
    = status (handle_request ex_online r (ex_env 7)).2 ∧
  status (handle_request ex_online r (ex_env 7)).2 = 200.
Proof.
  intros r. split; [|vm_compute; reflexivity].
  apply (banned_token_still_served ex_online r (ex_env 7) (js "a")).
  intros idToken. simpl. discriminate.
Defined.
